(** * sqlalchemy_commithooks: commit hooks around a session's commit

    A shallow embedding of [sqlalchemy_commithooks/commit_mixin.py]:
    the per-session change record ([_CommitObjects]), the recording
    methods of [SessionMixin], the dispatch loop [_do_commits], the
    three lifecycle handlers, the context manager [_tmp_transaction],
    the mutation-event bridge built by [_build_add_func] and the hook
    registration of [CommitMixin].

    Python objects are mutated in place and an exception leaves every
    mutation made so far visible, so a computation is a function from
    the session to an [Outcome] that carries the session in both the
    normal and the exceptional case. *)

From Stdlib Require Import Ascii String List Bool Arith PeanoNat Lia.
Import ListNotations.

Set Implicit Arguments.

(** ** Data model *)

(** The mutation kinds, the strings ['insert'], ['update'], ['delete']. *)
Inductive Kind : Type := Insert | Update | Delete.

(** The commit phases, the strings ['before'], ['after'], ['failed']
    (the source calls the phase [time]). *)
Inductive Time : Type := Before | After | Failed.

(** Entities are compared by object identity; an identity is a number. *)
Definition Entity : Type := nat.

(** The exceptions that can travel through the code. *)
Inductive Exn : Type :=
| TypeError
| AttributeError
| RuntimeError
| NotImplementedError
| UserError (code : nat).

Definition Kind_eqb (a b : Kind) : bool :=
  match a, b with
  | Insert, Insert | Update, Update | Delete, Delete => true
  | _, _ => false
  end.

Definition Time_eqb (a b : Time) : bool :=
  match a, b with
  | Before, Before | After, After | Failed, Failed => true
  | _, _ => false
  end.

Definition Kind_eq_dec (a b : Kind) : {a = b} + {a <> b}.
Proof. decide equality. Defined.

Definition Time_eq_dec (a b : Time) : {a = b} + {a <> b}.
Proof. decide equality. Defined.

(** A Python [set] of kinds.  The universe has three elements, so the
    set is its membership vector; [s.add(k)] is [ks_add], [k in s] is
    [ks_mem], [len(s)] is [ks_len]. *)
Record KindSet : Type := mkKindSet {
  has_insert : bool;
  has_update : bool;
  has_delete : bool
}.

Definition ks_empty : KindSet := mkKindSet false false false.

Definition ks_add (k : Kind) (s : KindSet) : KindSet :=
  match k with
  | Insert => mkKindSet true (has_update s) (has_delete s)
  | Update => mkKindSet (has_insert s) true (has_delete s)
  | Delete => mkKindSet (has_insert s) (has_update s) true
  end.

Definition ks_mem (k : Kind) (s : KindSet) : bool :=
  match k with
  | Insert => has_insert s
  | Update => has_update s
  | Delete => has_delete s
  end.

Definition ks_len (s : KindSet) : nat :=
  (if has_insert s then 1 else 0) + (if has_update s then 1 else 0)
  + (if has_delete s then 1 else 0).

(** A bucket is a [defaultdict(set)]: an insertion-ordered dictionary
    from entities to kind sets. *)
Definition Bucket : Type := list (Entity * KindSet).

Definition keys (b : Bucket) : list Entity := map fst b.

(** [b[obj]] when [obj] is a key; the empty set of the default factory
    otherwise. *)
Fixpoint bucket_get (b : Bucket) (obj : Entity) : KindSet :=
  match b with
  | [] => ks_empty
  | (o, ks) :: b' => if Nat.eqb o obj then ks else bucket_get b' obj
  end.

(** [b[obj].add(action)]: the set of an existing key is updated in
    place, a new key is appended with the default set. *)
Fixpoint bucket_add (b : Bucket) (obj : Entity) (action : Kind) : Bucket :=
  match b with
  | [] => [(obj, ks_add action ks_empty)]
  | (o, ks) :: b' =>
      if Nat.eqb o obj then (o, ks_add action ks) :: b'
      else (o, ks) :: bucket_add b' obj action
  end.

(** A dictionary has each key once. *)
Definition wf_bucket (b : Bucket) : Prop := NoDup (keys b).

(** The entry [(obj, kind)] is tracked in the bucket. *)
Definition tracked (b : Bucket) (obj : Entity) (k : Kind) : bool :=
  existsb (Nat.eqb obj) (keys b) && ks_mem k (bucket_get b obj).

Definition Call_eq_dec (a b : Entity * Time * Kind) : {a = b} + {a <> b}.
Proof.
  decide equality; [apply Kind_eq_dec|].
  decide equality; [apply Time_eq_dec | apply Nat.eq_dec].
Defined.

(** class [_CommitObjects] *)
Record _CommitObjects : Type := mk_CommitObjects {
  lock : bool;
  before : Bucket;
  after : Bucket;
  failed : Bucket
}.

(** [_CommitObjects.__init__] *)
Definition new_CommitObjects : _CommitObjects :=
  mk_CommitObjects false [] [] [].

(** A transaction handle is an object identity: one made by the engine,
    or one made by [_tmp_transaction]. *)
Inductive Txn : Type :=
| EngineTxn (n : nat)
| TmpTxn (n : nat).

(** One invocation [getattr(obj, f'{time}_commit_from_{type_}')()]. *)
Definition Call : Type := (Entity * Time * Kind)%type.

(** A session carrying [SessionMixin].  [calls] and [fresh] are ghost
    fields: the hook invocations made so far, in order, and the number
    of [SessionTransaction] objects created so far. *)
Record Session : Type := mkSession {
  _commit_objects : _CommitObjects;
  _after_failed_commit_active : bool;
  transaction : option Txn;
  calls : list Call;
  fresh : nat
}.

(** [SessionMixin.__init__]; the class attribute [transaction = None]. *)
Definition new_Session : Session :=
  mkSession new_CommitObjects false None [] 0.

(** [getattr(self._commit_objects, time)] *)
Definition get_bucket (t : Time) (c : _CommitObjects) : Bucket :=
  match t with
  | Before => before c
  | After => after c
  | Failed => failed c
  end.

Definition set_bucket (t : Time) (b : Bucket) (c : _CommitObjects)
  : _CommitObjects :=
  match t with
  | Before => mk_CommitObjects (lock c) b (after c) (failed c)
  | After => mk_CommitObjects (lock c) (before c) b (failed c)
  | Failed => mk_CommitObjects (lock c) (before c) (after c) b
  end.

Definition set_lock (l : bool) (c : _CommitObjects) : _CommitObjects :=
  mk_CommitObjects l (before c) (after c) (failed c).

Definition with_commit_objects (c : _CommitObjects) (s : Session) : Session :=
  mkSession c (_after_failed_commit_active s) (transaction s) (calls s)
            (fresh s).

Definition with_active (a : bool) (s : Session) : Session :=
  mkSession (_commit_objects s) a (transaction s) (calls s) (fresh s).

Definition with_transaction (x : option Txn) (s : Session) : Session :=
  mkSession (_commit_objects s) (_after_failed_commit_active s) x (calls s)
            (fresh s).

Definition log_call (c : Call) (s : Session) : Session :=
  mkSession (_commit_objects s) (_after_failed_commit_active s)
            (transaction s) (calls s ++ [c]) (fresh s).

Definition bucket_of (t : Time) (s : Session) : Bucket :=
  get_bucket t (_commit_objects s).

Definition locked (s : Session) : bool := lock (_commit_objects s).

(** ** Outcomes *)

Inductive Outcome : Type :=
| Normal (s : Session)
| Raise (e : Exn) (s : Session).

Definition bind (m : Outcome) (f : Session -> Outcome) : Outcome :=
  match m with
  | Normal s => f s
  | Raise e s => Raise e s
  end.

Notation "m >>= f" := (bind m f) (at level 50, left associativity).

Definition final (m : Outcome) : Session :=
  match m with
  | Normal s => s
  | Raise _ s => s
  end.

Definition raised (m : Outcome) : option Exn :=
  match m with
  | Normal _ => None
  | Raise e _ => Some e
  end.

(** ** The default hook bodies of [CommitMixin]

    Every default body is the statement [raise NotImplemented(self.__err)].
    The fragment of Python needed to run it: the value
    [NotImplemented] is a plain singleton object, an exception class is
    callable and yields an instance, and [raise] needs an exception
    instance or class. *)

Inductive PyVal : Type :=
| PyNone
| PyNotImplemented
| PyStr (s : string)
| PyExcClass (c : Exn)
| PyExcInst (c : Exn) (arg : PyVal).

(** [f(arg)]: only the exception classes are callable among these
    values; calling anything else is a [TypeError]. *)
Definition py_call (f arg : PyVal) : PyVal + Exn :=
  match f with
  | PyExcClass c => inl (PyExcInst c arg)
  | _ => inr TypeError
  end.

(** [raise f(arg)]: the call is evaluated first; its own exception
    wins, then the raised object decides. *)
Definition py_raise_call (f arg : PyVal) : Exn :=
  match py_call f arg with
  | inr e => e
  | inl (PyExcInst c _) => c
  | inl (PyExcClass c) => c
  | inl _ => TypeError
  end.

(** [__err = 'Override to add hooks'], name-mangled inside the class. *)
Definition _CommitMixin__err : string := "Override to add hooks".

(** The body shared by the nine default methods. *)
Definition default_hook_body : Exn :=
  py_raise_call PyNotImplemented (PyStr _CommitMixin__err).

(** ** Hooks

    A hook is user code.  What matters to the session is whether the
    hook is the inherited default, which mutation events its body
    causes (a query or a flush inside a hook makes the engine call the
    bridge for an entity of this session) and whether it raises. *)

Inductive HookOp : Type :=
| Mutation (time : Time) (obj : Entity) (action : Kind)
| Throw (e : Exn).

Inductive HookImpl : Type :=
| Inherited
| Overridden (body : list HookOp).

(** ** [SessionMixin]: recording *)

Definition _add_before_commit_object (obj : Entity) (action : Kind)
  (self : Session) : Session :=
  if negb (lock (_commit_objects self)) then
    with_commit_objects
      (set_bucket Before (bucket_add (before (_commit_objects self)) obj action)
                  (_commit_objects self)) self
  else self.

Definition _add_after_commit_object (obj : Entity) (action : Kind)
  (self : Session) : Session :=
  if negb (lock (_commit_objects self)) then
    with_commit_objects
      (set_bucket After (bucket_add (after (_commit_objects self)) obj action)
                  (_commit_objects self)) self
  else self.

Definition _add_failed_commit_object (obj : Entity) (action : Kind)
  (self : Session) : Session :=
  if negb (lock (_commit_objects self)) then
    with_commit_objects
      (set_bucket Failed (bucket_add (failed (_commit_objects self)) obj action)
                  (_commit_objects self)) self
  else self.

(** [getattr(session, f'_add_{time}_commit_object')] *)
Definition add_commit_object (time : Time)
  : Entity -> Kind -> Session -> Session :=
  match time with
  | Before => _add_before_commit_object
  | After => _add_after_commit_object
  | Failed => _add_failed_commit_object
  end.

(** Running the observable part of a piece of user or engine code. *)
Fixpoint run_ops (ops : list HookOp) (s : Session) : Outcome :=
  match ops with
  | [] => Normal s
  | Mutation time obj action :: rest =>
      run_ops rest (add_commit_object time obj action s)
  | Throw e :: _ => Raise e s
  end.

(** [session.flush()]: the engine emits the pending mutation events and
    may fail. *)
Definition flush (pending : list HookOp) (session : Session) : Outcome :=
  run_ops pending session.

(** [objects.clear()] on the bucket of [time]. *)
Definition clear_bucket (time : Time) (s : Session) : Session :=
  with_commit_objects (set_bucket time [] (_commit_objects s)) s.

Definition assign_lock (l : bool) (s : Session) : Session :=
  with_commit_objects (set_lock l (_commit_objects s)) s.

(** [SessionTransaction(session)]: a new object. *)
Definition SessionTransaction (s : Session) : Txn * Session :=
  (TmpTxn (fresh s),
   mkSession (_commit_objects s) (_after_failed_commit_active s)
             (transaction s) (calls s) (S (fresh s))).

(** [_tmp_transaction] under [@contextmanager], as used by
    [with _tmp_transaction(self) as session: body].  The generator runs
    up to [yield]; the body runs; when the body returns the generator
    is resumed and runs the statement after [yield]; when the body
    raises the exception is thrown into the generator at [yield], where
    nothing catches it, so the statement after [yield] is not run and
    the exception leaves the [with] statement. *)
Definition _tmp_transaction (body : Session -> Outcome) (session : Session)
  : Outcome :=
  let current_transaction := transaction session in
  let (handle, s0) := SessionTransaction session in
  let s1 := with_transaction (Some handle) s0 in
  match body s1 with
  | Normal s2 => Normal (with_transaction current_transaction s2)
  | Raise e s2 => Raise e s2
  end.

Section Dispatch.

(** [hooks obj time type_] is [getattr(obj, f'{time}_commit_from_{type_}')]. *)
Variable hooks : Entity -> Time -> Kind -> HookImpl.

Definition run_hook (h : HookImpl) (s : Session) : Outcome :=
  match h with
  | Inherited => Raise default_hook_body s
  | Overridden body => run_ops body s
  end.

(** [getattr(obj, func)()] *)
Definition call_hook (obj : Entity) (time : Time) (type_ : Kind)
  (s : Session) : Outcome :=
  run_hook (hooks obj time type_) (log_call (obj, time, type_) s).

(** [for obj in objects: ...] over the live dictionary.  The iterator
    remembers the size [used] the dictionary had when the loop
    started; each step first compares it with the current size
    ([RuntimeError: dictionary changed size during iteration]), then
    moves to the next entry, [used - rem] being its position. *)
Fixpoint for_obj (time : Time) (type_ : Kind) (used rem : nat)
  (self : Session) : Outcome :=
  let objects := bucket_of time self in
  if negb (Nat.eqb (length objects) used) then Raise RuntimeError self
  else
    match rem with
    | 0 => Normal self
    | S rem' =>
        match nth_error (keys objects) (used - rem) with
        | None => Normal self
        | Some obj =>
            (if ks_mem type_ (bucket_get objects obj)
             then call_hook obj time type_ self
             else Normal self)
            >>= for_obj time type_ used rem'
        end
    end.

Definition for_objects (time : Time) (type_ : Kind) (self : Session)
  : Outcome :=
  let used := length (bucket_of time self) in
  for_obj time type_ used used self.

(** [for type_ in ['insert', 'update', 'delete']: ...] *)
Fixpoint for_types (time : Time) (types : list Kind) (self : Session)
  : Outcome :=
  match types with
  | [] => Normal self
  | type_ :: rest =>
      for_objects time type_ self >>= for_types time rest
  end.

Definition _do_commits (time : Time) (self : Session) : Outcome :=
  for_types time [Insert; Update; Delete] self
  >>= fun s => Normal (clear_bucket time s).

Definition _do_before_commits (self : Session) : Outcome :=
  _do_commits Before (assign_lock true self).

Definition _do_after_commits (self : Session) : Outcome :=
  _tmp_transaction (_do_commits After) self
  >>= fun s => Normal (assign_lock false (clear_bucket Failed s)).

Definition _do_failed_commits (self : Session) : Outcome :=
  _tmp_transaction (_do_commits Failed) self
  >>= fun s => Normal (assign_lock false (clear_bucket After s)).

(** The listeners installed by [_register_commit_hooks]. *)

Definition before_commit (pending : list HookOp) (session : Session)
  : Outcome :=
  flush pending session
  >>= fun s => _do_before_commits (with_active true s).

Definition after_commit (session : Session) : Outcome :=
  _do_after_commits (with_active false session).

Definition after_failed_commit (session : Session) : Outcome :=
  (if _after_failed_commit_active session
   then _do_failed_commits session
   else Normal session)
  >>= fun s => Normal (with_active false s).

End Dispatch.

(** ** The dispatch order in the words of the specification

    Kinds in the fixed priority insert, update, delete; for each kind
    the entities of the bucket in insertion order; an entity is taken
    when its kind set has the kind. *)

Definition hooks_among (time : Time) (type_ : Kind) (b : Bucket)
  (objs : list Entity) : list Call :=
  map (fun obj => (obj, time, type_))
      (filter (fun obj => ks_mem type_ (bucket_get b obj)) objs).

Definition hooks_for (time : Time) (type_ : Kind) (b : Bucket) : list Call :=
  hooks_among time type_ b (keys b).

Definition dispatch_order (time : Time) (b : Bucket) : list Call :=
  hooks_for time Insert b ++ hooks_for time Update b
  ++ hooks_for time Delete b.

(** The first exception a body raises by itself. *)
Fixpoint first_throw (ops : list HookOp) : option Exn :=
  match ops with
  | [] => None
  | Mutation _ _ _ :: rest => first_throw rest
  | Throw e :: _ => Some e
  end.

Fixpoint has_mutation (ops : list HookOp) : bool :=
  match ops with
  | [] => false
  | Mutation _ _ _ :: _ => true
  | Throw _ :: rest => has_mutation rest
  end.

Definition hook_raises (h : HookImpl) : option Exn :=
  match h with
  | Inherited => Some default_hook_body
  | Overridden body => first_throw body
  end.

Definition log_calls (tr : list Call) (s : Session) : Session :=
  mkSession (_commit_objects s) (_after_failed_commit_active s)
            (transaction s) (calls s ++ tr) (fresh s).

Section Plan.

Variable hooks : Entity -> Time -> Kind -> HookImpl.

Definition call_raises (c : Call) : option Exn :=
  let '(obj, time, type_) := c in hook_raises (hooks obj time type_).

(** The calls really made out of a planned list of calls: all of them
    up to and including the first one that raises. *)
Fixpoint run_plan (plan : list Call) : list Call * option Exn :=
  match plan with
  | [] => ([], None)
  | c :: rest =>
      match call_raises c with
      | Some e => ([c], Some e)
      | None => let (tr, r) := run_plan rest in (c :: tr, r)
      end
  end.

Definition exec_plan (plan : list Call) (s : Session) : Outcome :=
  match run_plan plan with
  | (tr, None) => Normal (log_calls tr s)
  | (tr, Some e) => Raise e (log_calls tr s)
  end.

(** No hook of the plan raises. *)
Definition plan_ok (plan : list Call) : bool :=
  forallb (fun c => match call_raises c with None => true | Some _ => false end)
          plan.

(** No hook body causes a mutation event. *)
Definition inert : Prop :=
  forall obj time type_ body,
    hooks obj time type_ = Overridden body -> has_mutation body = false.

(** Hooks cannot change the change record of [s]: the record is
    locked, or no hook causes a mutation event at all. *)
Definition quiet (s : Session) : Prop :=
  locked s = true \/ inert.

End Plan.

(** ** The mutation-event bridge *)

(** The sessions that carry [SessionMixin], by identity, and the
    engine's [object_session].  An identity outside [sessions] is a
    session object of another class. *)
Record World : Type := mkWorld {
  sessions : list Session;
  object_session : Entity -> option nat
}.

Inductive WOutcome : Type :=
| WNormal (w : World)
| WRaise (e : Exn) (w : World).

Fixpoint store (l : list Session) (sid : nat) (s : Session) : list Session :=
  match l, sid with
  | [], _ => []
  | _ :: l', 0 => s :: l'
  | x :: l', S n => x :: store l' n s
  end.

(** [_build_add_func(time, action)] returns the closure [add_object];
    [mapper] and [connection] are not used by it.  [getattr] on [None],
    or on a session without the mixin, is an [AttributeError]. *)
Definition _build_add_func (time : Time) (action : Kind)
  : World -> Entity -> WOutcome :=
  fun w object =>
    match object_session w object with
    | None => WRaise AttributeError w
    | Some sid =>
        match nth_error (sessions w) sid with
        | None => WRaise AttributeError w
        | Some session =>
            WNormal
              (mkWorld
                 (store (sessions w) sid
                        (add_commit_object time object action session))
                 (object_session w))
        end
    end.

(** ** Hook registration *)

Definition ClassId : Type := nat.

(** The method name [f'{time}_commit_from_{action}']; [m.split('_')]
    has the time at position 0 and the action at position 3. *)
Definition HookName : Type := (Time * Kind)%type.

(** A listener installed by [event.listen(cls, f'after_{action}', fn)]
    with [fn = _build_add_func(time, action)]: it listens on [target]
    for the event of [action] and holds the closure over [time] and
    the same [action]. *)
Record Listener : Type := mkListener {
  target : ClassId;
  action : Kind;
  time : Time
}.

Definition Listener_eq_dec (a b : Listener) : {a = b} + {a <> b}.
Proof.
  decide equality; try apply Kind_eq_dec; try apply Time_eq_dec;
    apply Nat.eq_dec.
Defined.

Definition Registry : Type := list Listener.

(** A class below [CommitMixin] and the hook methods its body defines. *)
Record ClassDef : Type := mkClassDef {
  cls : ClassId;
  defines : list HookName
}.

Definition HookName_eqb (a b : HookName) : bool :=
  Time_eqb (fst a) (fst b) && Kind_eqb (snd a) (snd b).

(** [getattr(cls, hook)] along the method resolution order [mro] (the
    class first, [CommitMixin] last and left out): the class whose body
    provides the function, [None] for the default of [CommitMixin]. *)
Fixpoint getattr_hook (mro : list ClassDef) (hook : HookName)
  : option ClassId :=
  match mro with
  | [] => None
  | c :: rest =>
      if existsb (HookName_eqb hook) (defines c) then Some (cls c)
      else getattr_hook rest hook
  end.

(** The nine names of [CommitMixin.__dict__] that contain
    ['_commit_from_']. *)
Definition _lookup_hooks : list HookName :=
  list_prod [Before; After; Failed] [Insert; Update; Delete].

Definition _overridden_hooks (mro : list ClassDef) : list HookName :=
  filter (fun hook =>
            match getattr_hook mro hook with
            | Some _ => true
            | None => false
            end)
         _lookup_hooks.

Definition _register_hooks (c : ClassId) (methods : list HookName)
  (reg : Registry) : Registry :=
  fold_left
    (fun r m =>
       let time := fst m in
       let action := snd m in
       r ++ [mkListener c action time])
    methods reg.

(** [CommitMixin.__init_subclass__], run when the class with method
    resolution order [mro] is created. *)
Definition __init_subclass__ (mro : list ClassDef) (reg : Registry)
  : Registry :=
  match mro with
  | [] => reg
  | c :: _ => _register_hooks (cls c) (_overridden_hooks mro) reg
  end.

(** Creating the classes of a chain, the one nearest to [CommitMixin]
    first; [above] is the resolution order of the parent. *)
Fixpoint declare_chain (above : list ClassDef) (chain : list ClassDef)
  (reg : Registry) : Registry :=
  match chain with
  | [] => reg
  | c :: rest =>
      declare_chain (c :: above) rest (__init_subclass__ (c :: above) reg)
  end.

Section Events.

(** The engine's rule, outside this repository, for whether a
    listener installed on class [t] receives the events of an
    instance of class [c]. *)
Variable applies : ClassId -> ClassId -> bool.

Definition receives (c : ClassId) (k : Kind) (l : Listener) : bool :=
  applies (target l) c && Kind_eqb (action l) k.

(** The engine announces that [object], an instance of class [c],
    went through mutation [k] in a flush: every listener that
    receives the event is called, in registration order. *)
Fixpoint fire (reg : Registry) (c : ClassId) (k : Kind) (object : Entity)
  (w : World) : WOutcome :=
  match reg with
  | [] => WNormal w
  | l :: rest =>
      if receives c k l then
        match _build_add_func (time l) (action l) w object with
        | WNormal w' => fire rest c k object w'
        | WRaise e w' => WRaise e w'
        end
      else fire rest c k object w
  end.

(** The times of the listeners that receive an event. *)
Definition times_of (reg : Registry) (c : ClassId) (k : Kind) : list Time :=
  map time (filter (receives c k) reg).

End Events.

(** ** Reading a call *)

Definition call_obj (c : Call) : Entity := fst (fst c).

Definition call_time (c : Call) : Time := snd (fst c).

Definition call_kind (c : Call) : Kind := snd c.

(** A call of the hook of phase [t] and kind [k] of some entity. *)
Definition of_kind (t : Time) (k : Kind) (c : Call) : Prop :=
  call_time c = t /\ call_kind c = k.

(** ** The effect of one event on the owning session *)

(** What the listeners that receive one event do to the owning
    session: one recording for each of their times, in order. *)
Definition record_times (ts : list Time) (obj : Entity) (k : Kind)
  (s : Session) : Session :=
  fold_left (fun s' t => add_commit_object t obj k s') ts s.

Definition mem_time (t : Time) (ts : list Time) : bool :=
  existsb (Time_eqb t) ts.

(** ** Concrete hooks, sessions and worlds

    The inputs on which the properties below are exercised. *)

Definition silent_hooks : Entity -> Time -> Kind -> HookImpl :=
  fun _ _ _ => Overridden [].

Definition recording_hooks : Entity -> Time -> Kind -> HookImpl :=
  fun obj _ _ =>
    Overridden [Mutation Before (S obj) Insert; Mutation After obj Update;
                Mutation Failed (S obj) Delete].

Definition raising_after_hooks : Entity -> Time -> Kind -> HookImpl :=
  fun _ t _ =>
    match t with
    | After => Overridden [Throw (UserError 1)]
    | _ => Overridden []
    end.

Definition second_raises : Entity -> Time -> Kind -> HookImpl :=
  fun obj _ _ =>
    match obj with
    | 2 => Overridden [Throw (UserError 7)]
    | _ => Overridden []
    end.

(** The engine emits the insert of [obj] to the listeners of the three
    insert hooks. *)
Definition insert_flush (obj : Entity) : list HookOp :=
  [Mutation Before obj Insert; Mutation After obj Insert;
   Mutation Failed obj Insert].

(** An entity class with hooks on insert only: each of the three
    hooks causes further mutation events of its own; the six other
    hooks are the defaults of [CommitMixin]. *)
Definition insert_only_hooks : Entity -> Time -> Kind -> HookImpl :=
  fun obj _ k =>
    match k with
    | Insert =>
        Overridden [Mutation Before (S obj) Insert; Mutation After obj Update;
                    Mutation Failed (S obj) Delete]
    | _ => Inherited
    end.

(** The session after a flush that inserted entity [1]. *)
Definition inserted_session : Session :=
  final (flush (insert_flush 1) new_Session).

Definition flushed_session : Session :=
  final (flush [Mutation Before 1 Insert; Mutation After 1 Insert;
                Mutation Failed 1 Insert; Mutation Before 2 Delete]
               new_Session).

Definition delete_first_session : Session :=
  final (flush [Mutation Before 2 Delete; Mutation Before 1 Insert]
               new_Session).

Definition three_inserts_session : Session :=
  final (flush [Mutation Before 1 Insert; Mutation Before 2 Insert;
                Mutation Before 3 Insert] new_Session).

(** An entity updated five times within one flush. *)
Definition five_updates_session : Session :=
  Nat.iter 5 (add_commit_object After 4 Update) new_Session.

(** A session inside a transaction of the engine. *)
Definition engine_session : Session :=
  mkSession new_CommitObjects false (Some (EngineTxn 0)) [] 0.

(** The session in the middle of a commit cycle: [before_commit] ran
    and the outcome of the physical commit is pending. *)
Definition pending_commit_session : Session :=
  final (before_commit silent_hooks (insert_flush 1) new_Session).

(** The session left behind by a commit whose after hook raised:
    [before_commit] ran, then [after_commit] was aborted by the hook. *)
Definition aborted_commit_session : Session :=
  final (before_commit raising_after_hooks (insert_flush 1) new_Session
         >>= after_commit raising_after_hooks).

(** An entity that belongs to no session, next to a session that
    carries the mixin. *)
Definition detached_world : World := mkWorld [new_Session] (fun _ => None).

(** Entity [1] belongs to the locked session [0], entity [2] to the
    unlocked session [1]. *)
Definition two_session_world : World :=
  mkWorld [assign_lock true new_Session; new_Session]
          (fun obj => match obj with 1 => Some 0 | 2 => Some 1 | _ => None end).

(** Entity [5], an instance of class [2], belongs to session [0]. *)
Definition one_session_world : World :=
  mkWorld [new_Session] (fun obj => match obj with 5 => Some 0 | _ => None end).

(** [event.listen(cls, name, fn)] as [_register_hooks] calls it,
    without [propagate]: the listener installed on a class receives the
    events of the instances of that very class. *)
Definition exact_class : ClassId -> ClassId -> bool := Nat.eqb.

(** Class [1] overrides [after_commit_from_update]; class [2] derives
    from it and overrides nothing. *)
Definition chain_registry : Registry :=
  declare_chain [] [mkClassDef 1 [(After, Update)]; mkClassDef 2 []] [].

(** The classes of the repository's [TestHookLookup]. *)
Definition Direct : ClassDef := mkClassDef 1 [(Before, Update)].

Definition Overridden_ : ClassDef := mkClassDef 2 [(Before, Update)].

Definition Skipped : ClassDef := mkClassDef 3 [].

Definition SkippedSub : ClassDef := mkClassDef 4 [(Before, Insert)].

Definition Multiple : ClassDef := mkClassDef 5 [(Before, Delete)].

(** The object of the repository's [TestAddCommitObject]. *)
Definition mock_obj : Entity := 0.

(** ** The signals of the engine

    [_register_commit_hooks] installs [before_commit], [after_commit]
    and [after_failed_commit] on the session events ["before_commit"],
    ["after_commit"] and ["after_soft_rollback"].  A flush outside a
    commit reaches the session through the bridge only. *)

Inductive Signal : Type :=
| Flush (pending : list HookOp)
| PreCommit (pending : list HookOp)
| PostCommit
| SoftRollback.

Section Signals.

Variable hooks : Entity -> Time -> Kind -> HookImpl.

Definition handle (sig : Signal) (session : Session) : Outcome :=
  match sig with
  | Flush pending => flush pending session
  | PreCommit pending => before_commit hooks pending session
  | PostCommit => after_commit hooks session
  | SoftRollback => after_failed_commit hooks session
  end.

Fixpoint run_signals (sigs : list Signal) (session : Session) : Outcome :=
  match sigs with
  | [] => Normal session
  | sig :: rest => handle sig session >>= run_signals rest
  end.

End Signals.

(** The engine sends ["after_commit"] only for a commit it has
    announced by ["before_commit"]; [pending] tells whether such a
    commit is under way. *)
Fixpoint well_ordered (pending : bool) (sigs : list Signal) : bool :=
  match sigs with
  | [] => true
  | Flush _ :: rest => well_ordered pending rest
  | PreCommit _ :: rest => well_ordered true rest
  | PostCommit :: rest => pending && well_ordered false rest
  | SoftRollback :: rest => well_ordered false rest
  end.

(** No flush of the signals fails. *)
Fixpoint flushes_succeed (sigs : list Signal) : bool :=
  match sigs with
  | [] => true
  | Flush pending :: rest | PreCommit pending :: rest =>
      match first_throw pending with
      | None => flushes_succeed rest
      | Some _ => false
      end
  | _ :: rest => flushes_succeed rest
  end.

(** Whether a commit is under way after the signals. *)
Fixpoint pending_after (pending : bool) (sigs : list Signal) : bool :=
  match sigs with
  | [] => pending
  | Flush _ :: rest => pending_after pending rest
  | PreCommit _ :: rest => pending_after true rest
  | PostCommit :: rest | SoftRollback :: rest => pending_after false rest
  end.

(** ** The copy [src/commit_mixin.py]

    The file at the top of the source tree holds the same classes under
    other names; its session dispatches the after and the failed bucket
    without [_tmp_transaction]. *)

Module Unscoped.

Section Dispatch.

Variable hooks : Entity -> Time -> Kind -> HookImpl.

Definition _do_after_commits (self : Session) : Outcome :=
  _do_commits hooks After self
  >>= fun s => Normal (assign_lock false (clear_bucket Failed s)).

Definition _do_failed_commits (self : Session) : Outcome :=
  _do_commits hooks Failed self
  >>= fun s => Normal (assign_lock false (clear_bucket After s)).

End Dispatch.

End Unscoped.

(** ** Names

    The code finds hooks, recording methods and events by name:
    [_do_commits] builds [f'{time}_commit_from_{type_}'],
    [_lookup_hooks] searches the attribute names of [CommitMixin] for
    ['_commit_from_'], [_register_hooks] splits a hook name at ['_'],
    and [_build_add_func] builds [f'_add_{time}_commit_object']. *)

Module Names.

Definition time_name (t : Time) : string :=
  match t with
  | Before => "before"
  | After => "after"
  | Failed => "failed"
  end.

Definition kind_name (k : Kind) : string :=
  match k with
  | Insert => "insert"
  | Update => "update"
  | Delete => "delete"
  end.

(** [s.split(sep)] for a separator of one character. *)
Fixpoint split (sep : ascii) (s : string) : list string :=
  match s with
  | EmptyString => [EmptyString]
  | String c rest =>
      if Ascii.eqb c sep then EmptyString :: split sep rest
      else
        match split sep rest with
        | [] => [String c EmptyString]
        | piece :: pieces => String c piece :: pieces
        end
  end.

(** [p in s] *)
Fixpoint contains (p s : string) : bool :=
  match s with
  | EmptyString => String.prefix p EmptyString
  | String _ rest => String.prefix p s || contains p rest
  end.

(** The number of occurrences of a character. *)
Fixpoint count_char (c : ascii) (s : string) : nat :=
  match s with
  | EmptyString => 0
  | String c' rest => (if Ascii.eqb c' c then 1 else 0) + count_char c rest
  end.

(** [f'{time}_commit_from_{type_}'] *)
Definition hook_func (time type_ : string) : string :=
  String.append time (String.append "_commit_from_" type_).

(** [f'_add_{time}_commit_object'] *)
Definition add_method (time : string) : string :=
  String.append "_add_" (String.append time "_commit_object").

(** [f'after_{action}'] *)
Definition event_identifier (action : string) : string :=
  String.append "after_" action.

Definition hook_name (m : HookName) : string :=
  hook_func (time_name (fst m)) (kind_name (snd m)).

(** The keys of [CommitMixin.__dict__]: the names bound in the class
    body, in the order of the source, and the entries every class
    has. *)
Definition CommitMixin_dict : list string :=
  ["__module__"; "__doc__"; "__init_subclass__"; "_register_hooks";
   "_overridden_hooks"; "_lookup_hooks"; "_CommitMixin__err";
   "before_commit_from_insert"; "before_commit_from_update";
   "before_commit_from_delete"; "after_commit_from_insert";
   "after_commit_from_update"; "after_commit_from_delete";
   "failed_commit_from_insert"; "failed_commit_from_update";
   "failed_commit_from_delete"; "__dict__"; "__weakref__"]%string.

Definition _lookup_hooks : list string :=
  filter (contains "_commit_from_") CommitMixin_dict.

(** What [_register_hooks] can raise: [IndexError] from [tmp[3]] on a
    list that is too short, and what [event.listen] raises for an
    identifier the engine has no event for. *)
Inductive RegistrationError : Type :=
| IndexError
| InvalidRequestError.

(** A listener as [event.listen] receives it: the class, the event
    identifier and the closure of [_build_add_func] over [time] and
    [action]. *)
Record NamedListener : Type := mkNamedListener {
  on_class : ClassId;
  on_event : string;
  with_time : string;
  with_action : string
}.

Section Listen.

(** The identifiers the engine has an event for, outside this
    repository. *)
Variable known_event : string -> bool.

(** [_register_hooks] over the names in the order the set yields
    them; the listeners installed before a name that raises stay
    installed. *)
Fixpoint _register_hooks (c : ClassId) (methods : list string)
  (reg : list NamedListener)
  : list NamedListener * option RegistrationError :=
  match methods with
  | [] => (reg, None)
  | m :: rest =>
      let tmp := split "_" m in
      match nth_error tmp 0, nth_error tmp 3 with
      | Some time, Some action =>
          if known_event (event_identifier action) then
            _register_hooks c rest
              (reg ++ [mkNamedListener c (event_identifier action)
                                       time action])
          else (reg, Some InvalidRequestError)
      | _, _ => (reg, Some IndexError)
      end
  end.

(** The name has a piece 3 and the engine has the event named after
    it. *)
Definition installs (m : string) : bool :=
  match nth_error (split "_" m) 3 with
  | Some action => known_event (event_identifier action)
  | None => false
  end.

End Listen.

(** The events of the three kinds. *)
Definition mutation_events (identifier : string) : bool :=
  existsb (String.eqb identifier)
          ["after_insert"; "after_update"; "after_delete"]%string.

(** [getattr(session, method)] on a session that carries the mixin,
    for the names of the three recording methods. *)
Definition SessionMixin_getattr (method : string) : option Time :=
  if String.eqb method "_add_before_commit_object" then Some Before
  else if String.eqb method "_add_after_commit_object" then Some After
  else if String.eqb method "_add_failed_commit_object" then Some Failed
  else None.

(** [_build_add_func(time, action)] with the time as the string it is;
    the action is one of the three the engine has an event for. *)
Definition _build_add_func (time : string) (action : Kind)
  : World -> Entity -> WOutcome :=
  fun w object =>
    match object_session w object with
    | None => WRaise AttributeError w
    | Some sid =>
        match nth_error (sessions w) sid with
        | None => WRaise AttributeError w
        | Some session =>
            match SessionMixin_getattr (add_method time) with
            | None => WRaise AttributeError w
            | Some t =>
                WNormal
                  (mkWorld
                     (store (sessions w) sid
                            (add_commit_object t object action session))
                     (object_session w))
            end
        end
    end.

(** The listener of the registry, with its names. *)
Definition named (l : Listener) : NamedListener :=
  mkNamedListener (target l) (event_identifier (kind_name (action l)))
                  (time_name (time l)) (kind_name (action l)).

End Names.

(** ** What the dispatch leaves alone *)

(** [s'] has the lock, the flag, the transaction reference and the
    count of temporary transactions of [s]. *)
Definition same_frame (s s' : Session) : Prop :=
  locked s' = locked s
  /\ _after_failed_commit_active s' = _after_failed_commit_active s
  /\ transaction s' = transaction s
  /\ fresh s' = fresh s.

(** ** More concrete inputs *)

(** A flush that records one insert and then fails. *)
Definition failing_flush : list HookOp :=
  [Mutation Before 1 Insert; Throw (UserError 3); Mutation After 1 Insert].

Definition three_inserts_flush : list HookOp :=
  [Mutation Before 1 Insert; Mutation Before 2 Insert;
   Mutation Before 3 Insert].

Definition raising_failed_hooks : Entity -> Time -> Kind -> HookImpl :=
  fun _ t _ =>
    match t with
    | Failed => Overridden [Throw (UserError 2)]
    | _ => Overridden []
    end.

(** A flush, a rollback outside a commit, a commit that succeeds and a
    commit that fails. *)
Definition sample_signals : list Signal :=
  [Flush (insert_flush 1); SoftRollback; PreCommit (insert_flush 2);
   PostCommit; PreCommit (insert_flush 3); SoftRollback; SoftRollback].

(** ** Sessions that differ in the transaction only *)

(** [s'] has the change record, the flag and the calls of [s]. *)
Definition same_but_transaction (s s' : Session) : Prop :=
  _commit_objects s' = _commit_objects s
  /\ _after_failed_commit_active s' = _after_failed_commit_active s
  /\ calls s' = calls s.

(** Both return, or both raise the same exception, with sessions that
    differ in the transaction only. *)
Definition same_outcome_but_transaction (m m' : Outcome) : Prop :=
  match m, m' with
  | Normal s, Normal s' => same_but_transaction s s'
  | Raise e s, Raise e' s' => e = e' /\ same_but_transaction s s'
  | _, _ => False
  end.

(** * Properties *)

(** Reads the fields of the sessions written out in a goal, and
    nothing else. *)
Ltac fields :=
  cbn [bind final raised bucket_of get_bucket set_bucket set_lock locked
       with_active with_commit_objects with_transaction assign_lock
       clear_bucket log_call log_calls
       _commit_objects _after_failed_commit_active transaction calls fresh
       lock before after failed].

(** ** Kinds, kind sets and buckets *)

Lemma Kind_eqb_spec (a b : Kind) : reflect (a = b) (Kind_eqb a b).
Proof. destruct a, b; simpl; constructor; congruence. Qed.

Lemma Time_eqb_spec (a b : Time) : reflect (a = b) (Time_eqb a b).
Proof. destruct a, b; simpl; constructor; congruence. Qed.

Lemma ks_add_idem (k : Kind) (s : KindSet) :
  ks_add k (ks_add k s) = ks_add k s.
Proof. destruct k; reflexivity. Qed.

Lemma ks_mem_add (k k' : Kind) (s : KindSet) :
  ks_mem k (ks_add k' s) = Kind_eqb k k' || ks_mem k s.
Proof. destruct k, k', s; reflexivity. Qed.

Lemma ks_mem_add_same (k : Kind) (s : KindSet) : ks_mem k (ks_add k s) = true.
Proof. destruct k; reflexivity. Qed.

Lemma in_keys_existsb (b : Bucket) (obj : Entity) :
  existsb (Nat.eqb obj) (keys b) = true <-> In obj (keys b).
Proof.
  rewrite existsb_exists. split.
  - intros [x [Hin Heq]]. apply Nat.eqb_eq in Heq. now subst.
  - intros Hin. exists obj. split; [assumption | apply Nat.eqb_refl].
Qed.

Lemma keys_bucket_add (b : Bucket) (obj : Entity) (k : Kind) :
  keys (bucket_add b obj k) =
  if existsb (Nat.eqb obj) (keys b) then keys b else keys b ++ [obj].
Proof.
  unfold keys. induction b as [|[o ks] b IH]; simpl; [reflexivity|].
  rewrite (Nat.eqb_sym obj o).
  destruct (Nat.eqb o obj) eqn:E; simpl; [reflexivity|].
  rewrite IH.
  destruct (existsb (Nat.eqb obj) (map fst b)); reflexivity.
Qed.

Lemma wf_bucket_add (b : Bucket) (obj : Entity) (k : Kind) :
  wf_bucket b -> wf_bucket (bucket_add b obj k).
Proof.
  unfold wf_bucket. intros Hwf. rewrite keys_bucket_add.
  destruct (existsb (Nat.eqb obj) (keys b)) eqn:E; [assumption|].
  assert (Hn : ~ In obj (keys b)).
  { intros Hin. apply in_keys_existsb in Hin. congruence. }
  clear E. induction (keys b) as [|x l IH]; simpl.
  - constructor; [intros [] | constructor].
  - inversion Hwf as [|? ? Hx Hl]; subst. constructor.
    + rewrite in_app_iff. intros [H|[H|[]]]; [now apply Hx|].
      subst. apply Hn. now left.
    + apply IH; [assumption|]. intros H. apply Hn. now right.
Qed.

Lemma bucket_add_idem (b : Bucket) (obj : Entity) (k : Kind) :
  bucket_add (bucket_add b obj k) obj k = bucket_add b obj k.
Proof.
  induction b as [|[o ks] b IH]; simpl.
  - rewrite Nat.eqb_refl. now rewrite ks_add_idem.
  - destruct (Nat.eqb o obj) eqn:E; simpl; rewrite E.
    + now rewrite ks_add_idem.
    + now rewrite IH.
Qed.

Lemma bucket_get_add (b : Bucket) (obj o : Entity) (k : Kind) :
  bucket_get (bucket_add b obj k) o =
  if Nat.eqb obj o then ks_add k (bucket_get b obj) else bucket_get b o.
Proof.
  induction b as [|[x ks] b IH]; simpl.
  - destruct (Nat.eqb obj o); reflexivity.
  - destruct (Nat.eqb x obj) eqn:E; simpl.
    + apply Nat.eqb_eq in E. subst x.
      destruct (Nat.eqb obj o); reflexivity.
    + rewrite IH. destruct (Nat.eqb obj o) eqn:E2.
      * apply Nat.eqb_eq in E2. subst o. now rewrite E.
      * reflexivity.
Qed.

Lemma in_keys_bucket_add (b : Bucket) (obj : Entity) (k : Kind) :
  In obj (keys (bucket_add b obj k)).
Proof.
  rewrite keys_bucket_add.
  destruct (existsb (Nat.eqb obj) (keys b)) eqn:E.
  - now apply in_keys_existsb.
  - rewrite in_app_iff. right. now left.
Qed.

Lemma tracked_bucket_add (b : Bucket) (obj : Entity) (k : Kind) :
  tracked (bucket_add b obj k) obj k = true.
Proof.
  unfold tracked. apply andb_true_intro. split.
  - apply in_keys_existsb, in_keys_bucket_add.
  - rewrite bucket_get_add, Nat.eqb_refl. apply ks_mem_add_same.
Qed.

Lemma count_occ_keys_wf (b : Bucket) (obj : Entity) :
  wf_bucket b -> In obj (keys b) -> count_occ Nat.eq_dec (keys b) obj = 1.
Proof.
  intros Hwf Hin. apply NoDup_count_occ' with (decA := Nat.eq_dec) in Hin;
    assumption.
Qed.

(** ** Sessions *)

Lemma get_set_bucket (t t' : Time) (b : Bucket) (c : _CommitObjects) :
  get_bucket t (set_bucket t' b c) =
  if Time_eqb t t' then b else get_bucket t c.
Proof. destruct t, t'; reflexivity. Qed.

Lemma log_calls_nil (s : Session) : log_calls [] s = s.
Proof. destruct s. unfold log_calls. simpl. now rewrite app_nil_r. Qed.

Lemma log_calls_app (tr1 tr2 : list Call) (s : Session) :
  log_calls (tr1 ++ tr2) s = log_calls tr2 (log_calls tr1 s).
Proof. unfold log_calls. simpl. now rewrite app_assoc. Qed.

Lemma add_commit_object_locked (t : Time) (obj : Entity) (k : Kind)
  (s : Session) :
  locked s = true -> add_commit_object t obj k s = s.
Proof.
  unfold locked. intros H.
  destruct t; simpl;
    unfold _add_before_commit_object, _add_after_commit_object,
      _add_failed_commit_object; now rewrite H.
Qed.

Lemma add_commit_object_unlocked (t : Time) (obj : Entity) (k : Kind)
  (s : Session) :
  locked s = false ->
  add_commit_object t obj k s =
  with_commit_objects
    (set_bucket t (bucket_add (bucket_of t s) obj k) (_commit_objects s)) s.
Proof.
  unfold locked, bucket_of. intros H.
  destruct t; simpl;
    unfold _add_before_commit_object, _add_after_commit_object,
      _add_failed_commit_object; rewrite H; simpl; now rewrite H.
Qed.

Lemma run_ops_discard (ops : list HookOp) (s : Session) :
  locked s = true \/ has_mutation ops = false ->
  run_ops ops s =
  match first_throw ops with
  | None => Normal s
  | Some e => Raise e s
  end.
Proof.
  induction ops as [|[t obj k|e] ops IH]; simpl; intros H.
  - reflexivity.
  - destruct H as [H|H]; [|discriminate].
    rewrite add_commit_object_locked by assumption. apply IH. now left.
  - reflexivity.
Qed.

(** ** The dispatch loop against the dispatch order *)

Section DispatchFacts.

Variable hooks : Entity -> Time -> Kind -> HookImpl.

Lemma exec_plan_nil (s : Session) : exec_plan hooks [] s = Normal s.
Proof. unfold exec_plan. simpl. now rewrite log_calls_nil. Qed.

Lemma run_plan_app (p1 p2 : list Call) :
  run_plan hooks (p1 ++ p2) =
  match run_plan hooks p1 with
  | (tr1, Some e) => (tr1, Some e)
  | (tr1, None) =>
      let (tr2, r) := run_plan hooks p2 in (tr1 ++ tr2, r)
  end.
Proof.
  induction p1 as [|c p1 IH]; simpl.
  - now destruct (run_plan hooks p2).
  - destruct (call_raises hooks c); [reflexivity|].
    rewrite IH. destruct (run_plan hooks p1) as [tr1 [e|]]; [reflexivity|].
    now destruct (run_plan hooks p2).
Qed.

Lemma exec_plan_app (p1 p2 : list Call) (s : Session) :
  exec_plan hooks (p1 ++ p2) s = exec_plan hooks p1 s >>= exec_plan hooks p2.
Proof.
  unfold exec_plan. rewrite run_plan_app.
  destruct (run_plan hooks p1) as [tr1 [e|]]; simpl; [reflexivity|].
  destruct (run_plan hooks p2) as [tr2 [e|]];
    now rewrite log_calls_app.
Qed.

Lemma run_plan_ok (p : list Call) :
  plan_ok hooks p = true -> run_plan hooks p = (p, None).
Proof.
  induction p as [|c p IH]; simpl; [reflexivity|].
  destruct (call_raises hooks c); [discriminate|].
  simpl. intros H. now rewrite IH.
Qed.

Lemma exec_plan_ok (p : list Call) (s : Session) :
  plan_ok hooks p = true -> exec_plan hooks p s = Normal (log_calls p s).
Proof. intros H. unfold exec_plan. now rewrite run_plan_ok. Qed.

(** Whatever the plan does, it only extends the log of calls. *)
Lemma bind_exec_plan_ext (p : list Call) (s : Session)
  (f g : Session -> Outcome) :
  (forall tr, f (log_calls tr s) = g (log_calls tr s)) ->
  exec_plan hooks p s >>= f = exec_plan hooks p s >>= g.
Proof.
  intros H. unfold exec_plan.
  destruct (run_plan hooks p) as [tr [e|]]; simpl; [reflexivity|apply H].
Qed.

Lemma quiet_log_calls (tr : list Call) (s : Session) :
  quiet hooks s -> quiet hooks (log_calls tr s).
Proof. intros [H|H]; [left|right]; assumption. Qed.

Lemma call_hook_quiet (obj : Entity) (t : Time) (k : Kind) (s : Session) :
  quiet hooks s ->
  call_hook hooks obj t k s = exec_plan hooks [(obj, t, k)] s.
Proof.
  intros Hq. unfold call_hook, exec_plan. simpl.
  change (log_call (obj, t, k) s) with (log_calls [(obj, t, k)] s).
  destruct (hooks obj t k) as [|body] eqn:Eh; simpl; [reflexivity|].
  rewrite run_ops_discard.
  - now destruct (first_throw body).
  - destruct Hq as [Hl|Hi]; [now left|right]. now apply (Hi obj t k).
Qed.

Lemma skipn_nth_error (A : Type) (l : list A) (i : nat) (x : A) :
  nth_error l i = Some x -> skipn i l = x :: skipn (S i) l.
Proof.
  revert i. induction l as [|a l IH]; intros [|i]; simpl; try discriminate.
  - now intros [= ->].
  - intros H. now rewrite (IH i H).
Qed.

Lemma exec_plan_cons (c : Call) (p : list Call) (s : Session) :
  exec_plan hooks (c :: p) s = exec_plan hooks [c] s >>= exec_plan hooks p.
Proof. apply (exec_plan_app [c] p s). Qed.

Lemma hooks_among_cons (t : Time) (k : Kind) (b : Bucket) (obj : Entity)
  (objs : list Entity) :
  hooks_among t k b (obj :: objs) =
  if ks_mem k (bucket_get b obj)
  then (obj, t, k) :: hooks_among t k b objs
  else hooks_among t k b objs.
Proof.
  unfold hooks_among. simpl.
  now destruct (ks_mem k (bucket_get b obj)).
Qed.

Lemma for_obj_quiet (t : Time) (k : Kind) (used rem : nat) (s : Session) :
  quiet hooks s ->
  length (bucket_of t s) = used ->
  rem <= used ->
  for_obj hooks t k used rem s =
  exec_plan hooks
    (hooks_among t k (bucket_of t s)
                 (skipn (used - rem) (keys (bucket_of t s)))) s.
Proof.
  revert s. induction rem as [|rem IH]; intros s Hq Hlen Hle; simpl.
  - rewrite Hlen, Nat.eqb_refl. simpl.
    rewrite Nat.sub_0_r, skipn_all2.
    + apply eq_sym, exec_plan_nil.
    + unfold keys. rewrite length_map. lia.
  - rewrite Hlen, Nat.eqb_refl. simpl.
    destruct (nth_error (keys (bucket_of t s)) (used - S rem)) as [obj|] eqn:En.
    + rewrite (skipn_nth_error _ _ En).
      replace (S (used - S rem)) with (used - rem) by lia.
      rewrite hooks_among_cons.
      destruct (ks_mem k (bucket_get (bucket_of t s) obj)).
      * rewrite call_hook_quiet by assumption.
        rewrite (exec_plan_cons _ (hooks_among _ _ _ _)).
        apply bind_exec_plan_ext.
        intros tr.
        exact (IH (log_calls tr s) (quiet_log_calls tr Hq) Hlen
                  (Nat.lt_le_incl _ _ Hle)).
      * apply IH; [assumption|exact Hlen|lia].
    + apply nth_error_None in En. unfold keys in En.
      rewrite length_map in En. lia.
Qed.

Lemma for_objects_quiet (t : Time) (k : Kind) (s : Session) :
  quiet hooks s ->
  for_objects hooks t k s = exec_plan hooks (hooks_for t k (bucket_of t s)) s.
Proof.
  intros Hq. unfold for_objects.
  rewrite for_obj_quiet by (auto; lia).
  now rewrite Nat.sub_diag.
Qed.

Lemma for_types_quiet (t : Time) (types : list Kind) (s : Session) :
  quiet hooks s ->
  for_types hooks t types s =
  exec_plan hooks
    (flat_map (fun k => hooks_for t k (bucket_of t s)) types) s.
Proof.
  revert s. induction types as [|k types IH]; intros s Hq; simpl.
  - now rewrite exec_plan_nil.
  - rewrite for_objects_quiet by assumption.
    rewrite exec_plan_app. apply bind_exec_plan_ext.
    intros tr. exact (IH (log_calls tr s) (quiet_log_calls tr Hq)).
Qed.

(** The loop of [_do_commits] makes the calls of the dispatch order,
    up to the first hook that raises, and clears the bucket only
    when none did. *)
Lemma _do_commits_quiet (t : Time) (s : Session) :
  quiet hooks s ->
  _do_commits hooks t s =
  exec_plan hooks (dispatch_order t (bucket_of t s)) s
  >>= fun s' => Normal (clear_bucket t s').
Proof.
  intros Hq. unfold _do_commits.
  rewrite for_types_quiet by assumption.
  unfold dispatch_order. simpl. now rewrite app_nil_r.
Qed.

Lemma _do_commits_ok (t : Time) (s : Session) :
  quiet hooks s ->
  plan_ok hooks (dispatch_order t (bucket_of t s)) = true ->
  _do_commits hooks t s =
  Normal (clear_bucket t (log_calls (dispatch_order t (bucket_of t s)) s)).
Proof.
  intros Hq Hok. rewrite _do_commits_quiet by assumption.
  now rewrite exec_plan_ok.
Qed.

Lemma _do_commits_raise (t : Time) (s : Session) (tr : list Call) (e : Exn) :
  quiet hooks s ->
  run_plan hooks (dispatch_order t (bucket_of t s)) = (tr, Some e) ->
  _do_commits hooks t s = Raise e (log_calls tr s).
Proof.
  intros Hq Hr. rewrite _do_commits_quiet by assumption.
  unfold exec_plan. now rewrite Hr.
Qed.

End DispatchFacts.

(** ** The dispatch routines and the handlers when no hook raises *)

Section Lifecycle.

Variable hooks : Entity -> Time -> Kind -> HookImpl.

Lemma quiet_same_lock (s s' : Session) :
  locked s' = locked s -> quiet hooks s -> quiet hooks s'.
Proof. intros E [H|H]; [left; congruence | now right]. Qed.

Lemma plan_ok_never_raises (p : list Call) :
  (forall obj t k, hook_raises (hooks obj t k) = None) ->
  plan_ok hooks p = true.
Proof.
  intros H. unfold plan_ok. apply forallb_forall.
  intros [[obj t] k] _. simpl. now rewrite H.
Qed.

Lemma _do_before_commits_ok (s : Session) :
  plan_ok hooks (dispatch_order Before (bucket_of Before s)) = true ->
  _do_before_commits hooks s =
  Normal
    (mkSession
       (mk_CommitObjects true [] (after (_commit_objects s))
                         (failed (_commit_objects s)))
       (_after_failed_commit_active s) (transaction s)
       (calls s ++ dispatch_order Before (before (_commit_objects s)))
       (fresh s)).
Proof.
  intros Hok. unfold _do_before_commits.
  rewrite _do_commits_ok; [reflexivity | now left | exact Hok].
Qed.

Lemma _do_after_commits_ok (s : Session) :
  quiet hooks s ->
  plan_ok hooks (dispatch_order After (bucket_of After s)) = true ->
  _do_after_commits hooks s =
  Normal
    (mkSession
       (mk_CommitObjects false (before (_commit_objects s)) [] [])
       (_after_failed_commit_active s) (transaction s)
       (calls s ++ dispatch_order After (after (_commit_objects s)))
       (S (fresh s))).
Proof.
  intros Hq Hok. unfold _do_after_commits, _tmp_transaction. simpl.
  rewrite _do_commits_ok;
    [reflexivity | now apply (quiet_same_lock _ (s := s)) | exact Hok].
Qed.

Lemma _do_failed_commits_ok (s : Session) :
  quiet hooks s ->
  plan_ok hooks (dispatch_order Failed (bucket_of Failed s)) = true ->
  _do_failed_commits hooks s =
  Normal
    (mkSession
       (mk_CommitObjects false (before (_commit_objects s)) [] [])
       (_after_failed_commit_active s) (transaction s)
       (calls s ++ dispatch_order Failed (failed (_commit_objects s)))
       (S (fresh s))).
Proof.
  intros Hq Hok. unfold _do_failed_commits, _tmp_transaction. simpl.
  rewrite _do_commits_ok;
    [reflexivity | now apply (quiet_same_lock _ (s := s)) | exact Hok].
Qed.

Lemma after_commit_ok (s : Session) :
  quiet hooks s ->
  plan_ok hooks (dispatch_order After (bucket_of After s)) = true ->
  after_commit hooks s =
  Normal
    (mkSession
       (mk_CommitObjects false (before (_commit_objects s)) [] [])
       false (transaction s)
       (calls s ++ dispatch_order After (after (_commit_objects s)))
       (S (fresh s))).
Proof.
  intros Hq Hok. unfold after_commit.
  rewrite _do_after_commits_ok;
    [reflexivity | now apply (quiet_same_lock _ (s := s)) | exact Hok].
Qed.

Lemma with_active_same (s : Session) :
  with_active (_after_failed_commit_active s) s = s.
Proof. now destruct s. Qed.

End Lifecycle.

(** ** Default hooks *)

Lemma intended_spelling_raises (arg : PyVal) :
  py_raise_call (PyExcClass NotImplementedError) arg = NotImplementedError.
Proof. reflexivity. Qed.

(** C9: a default hook inherited from [CommitMixin] never raises
    [NotImplementedError].  Its body is [raise NotImplemented(...)];
    [NotImplemented] is not callable, so the call itself raises
    [TypeError], whatever the argument, and that is the exception of
    every invocation of a default hook, by itself or from the dispatch
    loop, for each of the nine hooks. *)
Theorem default_hook_raises_TypeError (s : Session) :
  (forall arg, py_call PyNotImplemented arg = inr TypeError)
  /\ default_hook_body = TypeError
  /\ run_hook Inherited s = Raise TypeError s
  /\ raised (run_hook Inherited s) <> Some NotImplementedError
  /\ forall obj t k,
       call_hook (fun _ _ _ => Inherited) obj t k s =
       Raise TypeError (log_call (obj, t, k) s).
Proof.
  repeat split.
  simpl. discriminate.
Qed.

(** ** The lock *)

Lemma _add_locked (obj : Entity) (k : Kind) (s : Session) :
  locked s = true ->
  _add_before_commit_object obj k s = s
  /\ _add_after_commit_object obj k s = s
  /\ _add_failed_commit_object obj k s = s.
Proof.
  intros H. repeat split.
  - exact (add_commit_object_locked Before obj k s H).
  - exact (add_commit_object_locked After obj k s H).
  - exact (add_commit_object_locked Failed obj k s H).
Qed.

Lemma tracked_nil (obj : Entity) (k : Kind) : tracked [] obj k = false.
Proof. reflexivity. Qed.

(** C1: while the lock is set, a write through
    [_add_before_commit_object], [_add_after_commit_object] or
    [_add_failed_commit_object] returns the session as it was, and a
    piece of code that causes any mutation events it likes leaves the
    session as it was and raises nothing but what it throws itself.
    When the hooks that the before-dispatch calls (those of the entries
    of the before bucket, whatever the other hooks of the entities are)
    raise nothing themselves, whatever mutation events they cause, the
    before-dispatch sets the lock, raises nothing, empties the before
    bucket and lets no new entry into any bucket; the lock is still set
    afterwards, and after the after-dispatch, or the failed-dispatch,
    that follows, when the hooks it calls raise nothing themselves, no
    bucket tracks any entry. *)
Theorem lock_discards_writes
  (hooks : Entity -> Time -> Kind -> HookImpl) (s : Session) :
  plan_ok hooks (dispatch_order Before (bucket_of Before s)) = true ->
  (forall obj k s', locked s' = true ->
     _add_before_commit_object obj k s' = s'
     /\ _add_after_commit_object obj k s' = s'
     /\ _add_failed_commit_object obj k s' = s')
  /\ (forall ops s', locked s' = true ->
        run_ops ops s' =
        match first_throw ops with
        | None => Normal s'
        | Some e => Raise e s'
        end)
  /\ exists s1,
       _do_before_commits hooks s = Normal s1
       /\ locked s1 = true
       /\ bucket_of Before s1 = []
       /\ bucket_of After s1 = bucket_of After s
       /\ bucket_of Failed s1 = bucket_of Failed s
       /\ (forall t obj k,
             tracked (bucket_of t s) obj k = false ->
             tracked (bucket_of t s1) obj k = false)
       /\ (plan_ok hooks (dispatch_order After (bucket_of After s)) = true ->
           exists s2,
             _do_after_commits hooks s1 = Normal s2
             /\ forall t obj k, tracked (bucket_of t s2) obj k = false)
       /\ (plan_ok hooks (dispatch_order Failed (bucket_of Failed s)) = true ->
           exists s3,
             _do_failed_commits hooks s1 = Normal s3
             /\ forall t obj k, tracked (bucket_of t s3) obj k = false).
Proof.
  intros Hb. split; [intros obj k s'; apply _add_locked|].
  split; [intros ops s' L; apply run_ops_discard; now left|].
  eexists. split; [apply _do_before_commits_ok, Hb|].
  repeat split.
  - intros [] obj k H; [reflexivity | exact H | exact H].
  - intros Ha. eexists. split.
    + apply _do_after_commits_ok; [now left | exact Ha].
    + now intros [] obj k.
  - intros Hf. eexists. split.
    + apply _do_failed_commits_ok; [now left | exact Hf].
    + now intros [] obj k.
Qed.

Lemma lock_discards_writes_witness :
  plan_ok insert_only_hooks
    (dispatch_order Before (bucket_of Before inserted_session)) = true
  /\ insert_only_hooks 1 Before Update = Inherited
  /\ tracked (bucket_of After inserted_session) 1 Update = false
  /\ exists s1,
       _do_before_commits insert_only_hooks inserted_session = Normal s1
       /\ locked s1 = true
       /\ tracked (bucket_of After s1) 1 Update = false
       /\ (exists s2,
             _do_after_commits insert_only_hooks s1 = Normal s2
             /\ forall t obj k, tracked (bucket_of t s2) obj k = false)
       /\ (exists s3,
             _do_failed_commits insert_only_hooks s1 = Normal s3
             /\ forall t obj k, tracked (bucket_of t s3) obj k = false).
Proof.
  assert (Hb : plan_ok insert_only_hooks
                 (dispatch_order Before (bucket_of Before inserted_session))
               = true) by reflexivity.
  split; [exact Hb|]. split; [reflexivity|]. split; [reflexivity|].
  destruct (lock_discards_writes insert_only_hooks inserted_session Hb)
    as [_ [_ [s1 [E1 [L1 [_ [_ [_ [Hk [Ha Hf]]]]]]]]]].
  exists s1. split; [exact E1|]. split; [exact L1|].
  split; [now apply Hk|].
  split; [now apply Ha | now apply Hf].
Defined.

(** ** The order of dispatch *)

Lemma in_hooks_for (t : Time) (k : Kind) (b : Bucket) (c : Call) :
  In c (hooks_for t k b) <->
  c = (call_obj c, t, k) /\ In (call_obj c) (keys b)
  /\ ks_mem k (bucket_get b (call_obj c)) = true.
Proof.
  unfold hooks_for, hooks_among. rewrite in_map_iff. split.
  - intros [obj [<- Hin]]. apply filter_In in Hin. simpl. tauto.
  - intros [-> [Hin Hk]]. exists (call_obj c). split; [reflexivity|].
    apply filter_In. tauto.
Qed.

Lemma in_hooks_for_tracked (t : Time) (k : Kind) (b : Bucket) (obj : Entity) :
  tracked b obj k = true -> In (obj, t, k) (hooks_for t k b).
Proof.
  unfold tracked. intros H. apply andb_prop in H as [H1 H2].
  apply in_hooks_for. simpl. repeat split; [|assumption].
  now apply in_keys_existsb.
Qed.

Lemma in_dispatch_order (t : Time) (b : Bucket) (c : Call) :
  In c (dispatch_order t b) ->
  call_time c = t /\ tracked b (call_obj c) (call_kind c) = true.
Proof.
  unfold dispatch_order. rewrite !in_app_iff.
  intros [H|[H|H]]; apply in_hooks_for in H as [E [Hin Hk]];
    rewrite E; unfold tracked; simpl;
    (split; [reflexivity|]); apply andb_true_intro;
    (split; [now apply in_keys_existsb | assumption]).
Qed.

Lemma app_between (A : Type) (a a' u d d' : list A) (x y : A) :
  (a ++ x :: a') ++ u ++ d ++ y :: d' = a ++ x :: (a' ++ u ++ d) ++ y :: d'.
Proof.
  now rewrite <- !app_assoc.
Qed.

Section Order.

Variable hooks : Entity -> Time -> Kind -> HookImpl.

Lemma run_plan_firstn (p : list Call) :
  exists n, fst (run_plan hooks p) = firstn n p.
Proof.
  induction p as [|c p [n IH]]; simpl.
  - now exists 0.
  - destruct (call_raises hooks c).
    + now exists 1.
    + exists (S n). destruct (run_plan hooks p). simpl in *. now rewrite IH.
Qed.

Lemma calls_exec_plan (p : list Call) (s : Session) :
  calls (final (exec_plan hooks p s)) = calls s ++ fst (run_plan hooks p).
Proof.
  unfold exec_plan. now destruct (run_plan hooks p) as [tr [e|]].
Qed.

(** C2: [_do_commits] invokes the hooks of a bucket by kind, insert
    first, then update, then delete, and within a kind in the
    insertion order of the entities.  Whatever happens, the calls made
    are an initial part of that order.  When no hook raises the
    dispatch returns and the calls made are all of that order, so that
    the insert hook of an entity tracked for insert is called before
    the delete hook of an entity tracked for delete, wherever the two
    entities stand in the bucket. *)
Theorem _do_commits_kind_priority (t : Time) (s : Session) :
  quiet hooks s ->
  let b := bucket_of t s in
  let having k :=
    filter (fun obj => ks_mem k (bucket_get b obj)) (keys b) in
  let order :=
    map (fun obj => (obj, t, Insert)) (having Insert)
    ++ map (fun obj => (obj, t, Update)) (having Update)
    ++ map (fun obj => (obj, t, Delete)) (having Delete) in
  (exists n,
      calls (final (_do_commits hooks t s)) = calls s ++ firstn n order)
  /\ (plan_ok hooks order = true ->
      _do_commits hooks t s = Normal (clear_bucket t (log_calls order s))
      /\ forall ei ed,
           tracked b ei Insert = true ->
           tracked b ed Delete = true ->
           exists l1 l2 l3,
             calls (final (_do_commits hooks t s)) =
             calls s ++ l1 ++ (ei, t, Insert) :: l2 ++ (ed, t, Delete) :: l3).
Proof.
  intros Hq b having order.
  assert (Eo : order = dispatch_order t b) by reflexivity.
  clearbody order. subst order. clear having.
  split.
  - destruct (run_plan_firstn (dispatch_order t b)) as [n Hn].
    exists n. rewrite _do_commits_quiet by assumption.
    transitivity (calls s ++ fst (run_plan hooks (dispatch_order t b)));
      [|now rewrite Hn].
    rewrite <- calls_exec_plan. unfold b.
    now destruct (exec_plan hooks (dispatch_order t (bucket_of t s)) s).
  - intros Hok.
    assert (E : _do_commits hooks t s =
                Normal (clear_bucket t (log_calls (dispatch_order t b) s)))
      by now apply _do_commits_ok.
    split; [exact E|].
    intros ei ed Hi Hd. rewrite E.
    apply (in_hooks_for_tracked t) in Hi. apply in_split in Hi as [a [a' Ha]].
    apply (in_hooks_for_tracked t) in Hd. apply in_split in Hd as [d [d' Hd]].
    exists a, (a' ++ hooks_for t Update b ++ d), d'.
    fields. f_equal.
    unfold dispatch_order. rewrite Ha, Hd. apply app_between.
Qed.

End Order.

Lemma silent_hooks_inert : inert silent_hooks.
Proof. intros obj t k body [= <-]. reflexivity. Qed.

Lemma _do_commits_kind_priority_witness :
  quiet silent_hooks delete_first_session
  /\ keys (bucket_of Before delete_first_session) = [2; 1]
  /\ calls (final (_do_commits silent_hooks Before delete_first_session)) =
     [(1, Before, Insert); (2, Before, Delete)].
Proof.
  assert (Hq : quiet silent_hooks delete_first_session)
    by (right; exact silent_hooks_inert).
  split; [exact Hq|]. split; [reflexivity|].
  destruct (_do_commits_kind_priority Before Hq) as [_ H].
  destruct (H eq_refl) as [E _]. now rewrite E.
Defined.

(** ** The post-commit signal *)

Lemma dispatch_order_single (t : Time) (obj : Entity) (k : Kind) :
  dispatch_order t [(obj, ks_add k ks_empty)] = [(obj, t, k)].
Proof.
  unfold dispatch_order, hooks_for, hooks_among. simpl.
  rewrite Nat.eqb_refl. now destruct k.
Qed.

Lemma plan_ok_single (hooks : Entity -> Time -> Kind -> HookImpl)
  (obj : Entity) (t : Time) (k : Kind) :
  hook_raises (hooks obj t k) = None -> plan_ok hooks [(obj, t, k)] = true.
Proof. intros H. simpl. now rewrite H. Qed.

Lemma flush_insert_fresh (obj : Entity) (s0 : Session) :
  _commit_objects s0 = new_CommitObjects ->
  flush (insert_flush obj) s0 =
  Normal
    (mkSession
       (mk_CommitObjects false [(obj, ks_add Insert ks_empty)]
                         [(obj, ks_add Insert ks_empty)]
                         [(obj, ks_add Insert ks_empty)])
       (_after_failed_commit_active s0) (transaction s0) (calls s0)
       (fresh s0)).
Proof. destruct s0 as [c a x l n]. simpl. now intros ->. Qed.

Lemma before_commit_insert (hooks : Entity -> Time -> Kind -> HookImpl)
  (obj : Entity) (s0 : Session) :
  _commit_objects s0 = new_CommitObjects ->
  hook_raises (hooks obj Before Insert) = None ->
  before_commit hooks (insert_flush obj) s0 =
  Normal
    (mkSession
       (mk_CommitObjects true [] [(obj, ks_add Insert ks_empty)]
                         [(obj, ks_add Insert ks_empty)])
       true (transaction s0) (calls s0 ++ [(obj, Before, Insert)])
       (fresh s0)).
Proof.
  intros H0 Hb. unfold before_commit.
  rewrite flush_insert_fresh by assumption. fields.
  rewrite _do_before_commits_ok; fields;
    rewrite dispatch_order_single; [reflexivity|].
  now apply plan_ok_single.
Qed.

(** C3: on the post-commit signal, with the hooks of the after bucket
    raising nothing, [after_commit] clears
    [_after_failed_commit_active], calls the hooks of the after bucket
    in dispatch order and nothing else, so no hook of the failed
    bucket, empties the after and the failed bucket and unsets the
    lock.  Hence a commit cycle with one inserted entity, from a
    session whose record is empty and unlocked, calls
    [before_commit_from_insert] and then [after_commit_from_insert] of
    that entity, once each, and calls nothing else. *)
Theorem post_commit_signal (hooks : Entity -> Time -> Kind -> HookImpl)
  (s s0 : Session) (obj : Entity) :
  quiet hooks s ->
  plan_ok hooks (dispatch_order After (bucket_of After s)) = true ->
  _commit_objects s0 = new_CommitObjects ->
  hook_raises (hooks obj Before Insert) = None ->
  hook_raises (hooks obj After Insert) = None ->
  after_commit hooks s =
    Normal
      (mkSession
         (mk_CommitObjects false (before (_commit_objects s)) [] [])
         false (transaction s)
         (calls s ++ dispatch_order After (after (_commit_objects s)))
         (S (fresh s)))
  /\ (forall c, In c (dispatch_order After (after (_commit_objects s))) ->
                call_time c = After)
  /\ before_commit hooks (insert_flush obj) s0 >>= after_commit hooks =
     Normal
       (mkSession new_CommitObjects false (transaction s0)
          (calls s0 ++ [(obj, Before, Insert); (obj, After, Insert)])
          (S (fresh s0))).
Proof.
  intros Hq Hok H0 Hb Ha. split; [now apply after_commit_ok|]. split.
  - intros c Hc. now apply in_dispatch_order in Hc.
  - rewrite before_commit_insert by assumption. fields.
    rewrite after_commit_ok; fields.
    + rewrite dispatch_order_single. now rewrite <- app_assoc.
    + now left.
    + rewrite dispatch_order_single. now apply plan_ok_single.
Qed.

Lemma post_commit_signal_witness :
  before_commit recording_hooks (insert_flush 1) new_Session
  >>= after_commit recording_hooks =
  Normal
    (mkSession new_CommitObjects false None
       [(1, Before, Insert); (1, After, Insert)] 1).
Proof.
  refine (proj2 (proj2
    (@post_commit_signal recording_hooks (assign_lock true new_Session)
       new_Session 1 _ _ _ _ _))).
  - now left.
  - reflexivity.
  - reflexivity.
  - reflexivity.
  - reflexivity.
Defined.

(** ** The post-failure signal *)

(** C4, as stated, fails: a commit whose after hook raised leaves the
    session locked with [_after_failed_commit_active] already cleared;
    the rollback that follows runs [after_failed_commit], which returns
    normally and leaves the lock set. *)
Lemma rollback_leaves_lock_set :
  raised (before_commit raising_after_hooks (insert_flush 1) new_Session
          >>= after_commit raising_after_hooks) = Some (UserError 1)
  /\ _after_failed_commit_active aborted_commit_session = false
  /\ locked aborted_commit_session = true
  /\ after_failed_commit raising_after_hooks aborted_commit_session =
     Normal aborted_commit_session
  /\ locked (final (after_failed_commit raising_after_hooks
                      aborted_commit_session)) = true.
Proof. repeat split. Qed.

(** C4, amended: [after_failed_commit] dispatches the failed bucket
    exactly when [_after_failed_commit_active] was set.  When it was
    set (and no failed hook raises) the hooks of the failed bucket are
    called in dispatch order and nothing else is, the after and the
    failed bucket are emptied, the lock is unset and the flag is
    cleared.  When it was not set the handler calls no hook and returns
    the session untouched: the flag stays cleared, and the buckets and
    the lock stay as they were. *)
Theorem post_failure_signal (hooks : Entity -> Time -> Kind -> HookImpl)
  (s : Session) :
  (_after_failed_commit_active s = false ->
   after_failed_commit hooks s = Normal s)
  /\ (_after_failed_commit_active s = true ->
      quiet hooks s ->
      plan_ok hooks (dispatch_order Failed (bucket_of Failed s)) = true ->
      after_failed_commit hooks s =
      Normal
        (mkSession
           (mk_CommitObjects false (before (_commit_objects s)) [] [])
           false (transaction s)
           (calls s ++ dispatch_order Failed (failed (_commit_objects s)))
           (S (fresh s)))
      /\ forall c, In c (dispatch_order Failed (failed (_commit_objects s))) ->
                   call_time c = Failed).
Proof.
  split.
  - intros Ha. unfold after_failed_commit. rewrite Ha. fields.
    now rewrite <- Ha, with_active_same.
  - intros Ha Hq Hok. split.
    + unfold after_failed_commit. rewrite Ha.
      now rewrite _do_failed_commits_ok.
    + intros c Hc. now apply in_dispatch_order in Hc.
Qed.

Lemma post_failure_signal_witness :
  after_failed_commit silent_hooks new_Session = Normal new_Session
  /\ after_failed_commit silent_hooks pending_commit_session =
     Normal
       (mkSession new_CommitObjects false None
          [(1, Before, Insert); (1, Failed, Insert)] 1).
Proof.
  split.
  - apply (proj1 (post_failure_signal silent_hooks new_Session)).
    reflexivity.
  - apply (proj2 (post_failure_signal silent_hooks pending_commit_session)).
    + reflexivity.
    + right. exact silent_hooks_inert.
    + reflexivity.
Defined.

(** ** A hook that raises *)

Section Abort.

Variable hooks : Entity -> Time -> Kind -> HookImpl.

Lemma run_plan_raise_split (p : list Call) :
  plan_ok hooks p = false ->
  exists e done c rest,
    p = done ++ c :: rest
    /\ plan_ok hooks done = true
    /\ call_raises hooks c = Some e
    /\ run_plan hooks p = (done ++ [c], Some e).
Proof.
  induction p as [|c p IH]; simpl; [discriminate|].
  destruct (call_raises hooks c) as [e|] eqn:Ec; simpl.
  - intros _. exists e, [], c, p. repeat split. assumption.
  - intros H. destruct (IH H) as [e [done [c' [rest [Ep [Hd [Hc Hr]]]]]]].
    exists e, (c :: done), c', rest. rewrite Hr, Ep. simpl. rewrite Ec.
    repeat split; assumption.
Qed.

Lemma _do_commits_abort (t : Time) (s : Session) :
  quiet hooks s ->
  plan_ok hooks (dispatch_order t (bucket_of t s)) = false ->
  exists e done c rest,
    dispatch_order t (bucket_of t s) = done ++ c :: rest
    /\ plan_ok hooks done = true
    /\ call_raises hooks c = Some e
    /\ _do_commits hooks t s = Raise e (log_calls (done ++ [c]) s).
Proof.
  intros Hq Hbad.
  destruct (run_plan_raise_split _ Hbad)
    as [e [done [c [rest [Ep [Hd [Hc Hr]]]]]]].
  exists e, done, c, rest. repeat split; try assumption.
  now apply _do_commits_raise.
Qed.

(** C5, amended: when a hook raises during the dispatch of a bucket,
    the hooks before it in the dispatch order have been called, the
    hooks after it are not called, the exception leaves [_do_commits],
    and the change record is exactly what it was when the dispatch
    started: the bucket is not cleared at all, so every entity,
    processed or not, is still in it. *)
Theorem raising_hook_aborts_dispatch (t : Time) (s : Session) :
  quiet hooks s ->
  plan_ok hooks (dispatch_order t (bucket_of t s)) = false ->
  exists e done c rest,
    dispatch_order t (bucket_of t s) = done ++ c :: rest
    /\ plan_ok hooks done = true
    /\ call_raises hooks c = Some e
    /\ _do_commits hooks t s = Raise e (log_calls (done ++ [c]) s)
    /\ _commit_objects (final (_do_commits hooks t s)) = _commit_objects s.
Proof.
  intros Hq Hbad.
  destruct (_do_commits_abort t Hq Hbad)
    as [e [done [c [rest [Ep [Hd [Hc E]]]]]]].
  exists e, done, c, rest. repeat split; try assumption. now rewrite E.
Qed.

End Abort.

(** C5, as stated, fails: the hook of the second of three entities
    raises; the first entity has been processed and is still in the
    bucket. *)
Lemma raising_hook_clears_nothing :
  raised (_do_before_commits second_raises three_inserts_session) =
  Some (UserError 7)
  /\ calls (final (_do_before_commits second_raises three_inserts_session)) =
     [(1, Before, Insert); (2, Before, Insert)]
  /\ keys (bucket_of Before
             (final (_do_before_commits second_raises three_inserts_session)))
     = [1; 2; 3].
Proof. repeat split. Qed.

Lemma second_raises_inert : inert second_raises.
Proof.
  intros obj t k body. unfold second_raises.
  destruct obj as [|[|[|n]]]; intros [= <-]; reflexivity.
Qed.

Lemma raising_hook_aborts_dispatch_witness :
  plan_ok second_raises
    (dispatch_order Before (bucket_of Before three_inserts_session)) = false
  /\ exists e done c rest,
       dispatch_order Before (bucket_of Before three_inserts_session) =
       done ++ c :: rest
       /\ plan_ok second_raises done = true
       /\ call_raises second_raises c = Some e
       /\ _do_commits second_raises Before three_inserts_session =
          Raise e (log_calls (done ++ [c]) three_inserts_session)
       /\ _commit_objects
            (final (_do_commits second_raises Before three_inserts_session)) =
          _commit_objects three_inserts_session.
Proof.
  split; [reflexivity|].
  apply (raising_hook_aborts_dispatch (hooks := second_raises)).
  - right. exact second_raises_inert.
  - reflexivity.
Defined.

(** ** Repeated recording *)

Lemma add_commit_object_idem (t : Time) (obj : Entity) (k : Kind)
  (s : Session) :
  add_commit_object t obj k (add_commit_object t obj k s) =
  add_commit_object t obj k s.
Proof.
  destruct (locked s) eqn:L.
  - now rewrite !(add_commit_object_locked t obj k s L).
  - rewrite (add_commit_object_unlocked t obj k s L).
    rewrite add_commit_object_unlocked.
    + unfold with_commit_objects, bucket_of. fields.
      destruct t; fields; now rewrite bucket_add_idem.
    + unfold locked in *. destruct t; exact L.
Qed.

Lemma iter_add_commit_object (n : nat) (t : Time) (obj : Entity) (k : Kind)
  (s : Session) :
  1 <= n ->
  Nat.iter n (add_commit_object t obj k) s = add_commit_object t obj k s.
Proof.
  induction n as [|n IH]; [lia|]. intros _. simpl.
  destruct n as [|n]; [reflexivity|].
  rewrite IH by lia. apply add_commit_object_idem.
Qed.

Lemma bucket_of_add_commit_object (t : Time) (obj : Entity) (k : Kind)
  (s : Session) :
  locked s = false ->
  bucket_of t (add_commit_object t obj k s) =
  bucket_add (bucket_of t s) obj k.
Proof.
  intros L. rewrite add_commit_object_unlocked by assumption.
  unfold bucket_of. now destruct t.
Qed.

Lemma NoDup_map_injective (A B : Type) (f : A -> B) (l : list A) :
  (forall x y, f x = f y -> x = y) -> NoDup l -> NoDup (map f l).
Proof.
  intros Hf. induction 1 as [|x l Hx Hl IH]; simpl; constructor.
  - rewrite in_map_iff. intros [y [E Hy]]. apply Hf in E. now subst.
  - exact IH.
Qed.

Lemma NoDup_hooks_for (t : Time) (k : Kind) (b : Bucket) :
  wf_bucket b -> NoDup (hooks_for t k b).
Proof.
  intros Hwf. unfold hooks_for, hooks_among.
  apply NoDup_map_injective; [now intros x y [= ->]|].
  now apply NoDup_filter.
Qed.

Lemma count_hooks_for (t : Time) (k k' : Kind) (b : Bucket) (obj : Entity) :
  wf_bucket b ->
  tracked b obj k = true ->
  count_occ Call_eq_dec (hooks_for t k' b) (obj, t, k) =
  if Kind_eqb k' k then 1 else 0.
Proof.
  intros Hwf Ht. destruct (Kind_eqb_spec k' k) as [->|Hne].
  - apply NoDup_count_occ'; [now apply NoDup_hooks_for|].
    now apply in_hooks_for_tracked.
  - apply count_occ_not_In. intros Hin. apply in_hooks_for in Hin as [E _].
    simpl in E. congruence.
Qed.

(** In the dispatch order of a dictionary a tracked entry stands once. *)
Lemma count_dispatch_order (t : Time) (b : Bucket) (obj : Entity) (k : Kind) :
  wf_bucket b ->
  tracked b obj k = true ->
  count_occ Call_eq_dec (dispatch_order t b) (obj, t, k) = 1.
Proof.
  intros Hwf Ht. unfold dispatch_order.
  rewrite !count_occ_app, !count_hooks_for by assumption.
  now destruct k.
Qed.

(** Dispatching a bucket into which an entry has been recorded. *)
Lemma recorded_fires_once (hooks : Entity -> Time -> Kind -> HookImpl)
  (t : Time) (obj : Entity) (k : Kind) (b : Bucket) (s' : Session) :
  wf_bucket b ->
  bucket_of t s' = bucket_add b obj k ->
  quiet hooks s' ->
  plan_ok hooks (dispatch_order t (bucket_of t s')) = true ->
  count_occ Nat.eq_dec (keys (bucket_of t s')) obj = 1
  /\ ks_mem k (bucket_get (bucket_of t s') obj) = true
  /\ exists tr,
       _do_commits hooks t s' = Normal (clear_bucket t (log_calls tr s'))
       /\ count_occ Call_eq_dec tr (obj, t, k) = 1.
Proof.
  intros Hwf Eb Hq Hok.
  assert (Hwf' : wf_bucket (bucket_of t s'))
    by (rewrite Eb; now apply wf_bucket_add).
  assert (Ht : tracked (bucket_of t s') obj k = true)
    by (rewrite Eb; apply tracked_bucket_add).
  split; [|split].
  - apply count_occ_keys_wf; [assumption|].
    rewrite Eb. apply in_keys_bucket_add.
  - unfold tracked in Ht. now apply andb_prop in Ht.
  - exists (dispatch_order t (bucket_of t s')). split.
    + now apply _do_commits_ok.
    + now apply count_dispatch_order.
Qed.

(** C7: recording the same entity and kind [n >= 1] times into the
    bucket of [t] of an unlocked session leaves the entity once among
    the keys of the bucket, with the kind in its set; and a dispatch of
    that bucket in which no hook raises calls the hook of that entity
    and kind exactly once. *)
Theorem repeated_recording_fires_once
  (hooks : Entity -> Time -> Kind -> HookImpl)
  (t : Time) (obj : Entity) (k : Kind) (n : nat) (s s' : Session) :
  1 <= n ->
  locked s = false ->
  wf_bucket (bucket_of t s) ->
  bucket_of t s' = bucket_of t (Nat.iter n (add_commit_object t obj k) s) ->
  quiet hooks s' ->
  plan_ok hooks (dispatch_order t (bucket_of t s')) = true ->
  count_occ Nat.eq_dec (keys (bucket_of t s')) obj = 1
  /\ ks_mem k (bucket_get (bucket_of t s') obj) = true
  /\ exists tr,
       _do_commits hooks t s' = Normal (clear_bucket t (log_calls tr s'))
       /\ count_occ Call_eq_dec tr (obj, t, k) = 1.
Proof.
  intros Hn L Hwf Eb Hq Hok.
  rewrite iter_add_commit_object, bucket_of_add_commit_object in Eb
    by assumption.
  now apply recorded_fires_once with (bucket_of t s).
Qed.

Lemma repeated_recording_fires_once_witness :
  bucket_of After five_updates_session = [(4, ks_add Update ks_empty)]
  /\ count_occ Nat.eq_dec
       (keys (bucket_of After (assign_lock true five_updates_session))) 4 = 1
  /\ exists tr,
       _do_commits recording_hooks After
                   (assign_lock true five_updates_session) =
       Normal (clear_bucket After
                 (log_calls tr (assign_lock true five_updates_session)))
       /\ count_occ Call_eq_dec tr (4, After, Update) = 1.
Proof.
  split; [reflexivity|].
  destruct (@repeated_recording_fires_once recording_hooks After 4 Update 5
              new_Session (assign_lock true five_updates_session))
    as [H1 [_ H3]].
  - lia.
  - reflexivity.
  - constructor.
  - reflexivity.
  - now left.
  - reflexivity.
  - split; assumption.
Defined.

(** ** The temporary transaction *)

(** When the body returns, the transaction reference the session had
    on entry is put back. *)
Lemma _tmp_transaction_restores (body : Session -> Outcome)
  (session s' : Session) :
  _tmp_transaction body session = Normal s' ->
  transaction s' = transaction session.
Proof.
  unfold _tmp_transaction. simpl.
  destruct (body _) as [s2|e s2]; [|discriminate].
  now intros [= <-].
Qed.

(** When the body raises, the session is left as the body left it. *)
Lemma _tmp_transaction_raises (body : Session -> Outcome)
  (session s2 : Session) (e : Exn) :
  body (with_transaction (Some (TmpTxn (fresh session)))
          (snd (SessionTransaction session))) = Raise e s2 ->
  _tmp_transaction body session = Raise e s2.
Proof. unfold _tmp_transaction. simpl. now intros ->. Qed.

(** The dispatch loop does not touch the transaction reference. *)
Lemma _do_after_commits_raise (hooks : Entity -> Time -> Kind -> HookImpl)
  (s : Session) :
  quiet hooks s ->
  plan_ok hooks (dispatch_order After (bucket_of After s)) = false ->
  exists e,
    raised (_do_after_commits hooks s) = Some e
    /\ transaction (final (_do_after_commits hooks s)) =
       Some (TmpTxn (fresh s))
    /\ _commit_objects (final (_do_after_commits hooks s)) = _commit_objects s.
Proof.
  intros Hq Hbad.
  pose (s1 := with_transaction (Some (TmpTxn (fresh s)))
                (snd (SessionTransaction s))).
  destruct (@_do_commits_abort hooks After s1)
    as [e [done [c [rest [_ [_ [_ E]]]]]]].
  - exact (quiet_same_lock (s := s) s1 eq_refl Hq).
  - exact Hbad.
  - exists e. unfold _do_after_commits.
    rewrite (_tmp_transaction_raises _ _ E). repeat split.
Qed.

(** C8: the transaction reference is not put back when the body
    raises.  In a commit cycle on a session that holds the engine's
    transaction, with an after hook that raises, the exception leaves
    [_do_after_commits] and the session still points at the temporary
    [SessionTransaction] made by [_tmp_transaction]. *)
Theorem _tmp_transaction_not_restored_on_raise :
  let s := final (before_commit raising_after_hooks (insert_flush 1)
                                engine_session) in
  transaction s = Some (EngineTxn 0)
  /\ raised (_do_after_commits raising_after_hooks s) = Some (UserError 1)
  /\ transaction (final (_do_after_commits raising_after_hooks s)) =
     Some (TmpTxn 0)
  /\ transaction (final (_do_after_commits raising_after_hooks s)) <>
     transaction s.
Proof. repeat split. discriminate. Qed.

(** ** The mutation-event bridge *)

Lemma store_same (l : list Session) (sid : nat) (s : Session) :
  nth_error l sid = Some s -> store l sid s = l.
Proof.
  revert sid. induction l as [|x l IH]; intros [|sid]; simpl;
    try discriminate.
  - now intros [= ->].
  - intros H. now rewrite IH.
Qed.

Lemma nth_error_store (l : list Session) (sid : nat) (s s' : Session) :
  nth_error l sid = Some s -> nth_error (store l sid s') sid = Some s'.
Proof.
  revert sid. induction l as [|x l IH]; intros [|sid]; simpl;
    try discriminate; [reflexivity|apply IH].
Qed.

Lemma nth_error_store_other (l : list Session) (sid j : nat) (s' : Session) :
  j <> sid -> nth_error (store l sid s') j = nth_error l j.
Proof.
  revert sid j. induction l as [|x l IH]; intros [|sid] [|j] H; simpl;
    try reflexivity; [congruence|].
  apply IH. congruence.
Qed.

Lemma store_store (l : list Session) (sid : nat) (s1 s2 : Session) :
  store (store l sid s1) sid s2 = store l sid s2.
Proof.
  revert sid. induction l as [|x l IH]; intros [|sid]; simpl;
    try reflexivity. now rewrite IH.
Qed.

Lemma World_eta (w : World) : mkWorld (sessions w) (object_session w) = w.
Proof. now destruct w. Qed.

(** C6, as stated, fails: for an entity whose owning session cannot be
    resolved the bridge is not a silent no-op, it raises
    [AttributeError]. *)
Lemma bridge_raises_without_session :
  object_session detached_world 1 = None
  /\ _build_add_func Before Insert detached_world 1 =
     WRaise AttributeError detached_world.
Proof. split; reflexivity. Qed.

(** C6, amended: the bridge raises [AttributeError] when
    [object_session] gives no session, or a session without the mixin,
    and then leaves every session untouched.  When the owning session
    carries the mixin the bridge does not raise: it returns after the
    session's [_add_{time}_commit_object], every other session is
    untouched, and when the owning session is locked the whole world is
    as it was. *)
Theorem bridge_behaviour (t : Time) (k : Kind) (w : World) (obj : Entity) :
  (object_session w obj = None ->
   _build_add_func t k w obj = WRaise AttributeError w)
  /\ (forall sid,
        object_session w obj = Some sid ->
        nth_error (sessions w) sid = None ->
        _build_add_func t k w obj = WRaise AttributeError w)
  /\ (forall sid session,
        object_session w obj = Some sid ->
        nth_error (sessions w) sid = Some session ->
        exists w',
          _build_add_func t k w obj = WNormal w'
          /\ object_session w' = object_session w
          /\ nth_error (sessions w') sid =
             Some (add_commit_object t obj k session)
          /\ (forall j, j <> sid ->
                nth_error (sessions w') j = nth_error (sessions w) j)
          /\ (locked session = true -> w' = w)).
Proof.
  unfold _build_add_func. split; [|split].
  - now intros ->.
  - now intros sid -> ->.
  - intros sid session -> Hs. rewrite Hs. eexists. split; [reflexivity|].
    simpl. split; [reflexivity|].
    split; [now apply nth_error_store with session|].
    split.
    + intros j Hj. now apply nth_error_store_other.
    + intros L. rewrite add_commit_object_locked by assumption.
      rewrite store_same by assumption. apply World_eta.
Qed.

Lemma bridge_behaviour_witness :
  _build_add_func After Update two_session_world 3 =
  WRaise AttributeError two_session_world
  /\ exists w',
       _build_add_func After Update two_session_world 1 = WNormal w'
       /\ w' = two_session_world.
Proof.
  destruct (bridge_behaviour After Update two_session_world 3) as [H3 _].
  destruct (bridge_behaviour After Update two_session_world 1) as [_ [_ H1]].
  split; [now apply H3|].
  destruct (H1 0 (assign_lock true new_Session) eq_refl eq_refl)
    as [w' [E [_ [_ [_ Hl]]]]].
  exists w'. split; [exact E | now apply Hl].
Defined.

(** ** Registering a hook more than once *)

Lemma mem_time_In (t : Time) (ts : list Time) :
  mem_time t ts = true <-> In t ts.
Proof.
  unfold mem_time. rewrite existsb_exists. split.
  - intros [x [Hin E]]. now destruct (Time_eqb_spec t x); subst.
  - intros Hin. exists t. split; [assumption|]. now destruct t.
Qed.

Lemma mem_time_same (t : Time) (ts1 ts2 : list Time) :
  (forall x, In x ts1 <-> In x ts2) -> mem_time t ts1 = mem_time t ts2.
Proof.
  intros H. apply eq_true_iff_eq. now rewrite !mem_time_In.
Qed.

Lemma record_times_locked (ts : list Time) (obj : Entity) (k : Kind)
  (s : Session) :
  locked s = true -> record_times ts obj k s = s.
Proof.
  intros L. induction ts as [|t ts IH]; simpl; [reflexivity|].
  now rewrite add_commit_object_locked.
Qed.

(** Which buckets are written depends on the set of times only. *)
Lemma record_times_unlocked (ts : list Time) (obj : Entity) (k : Kind)
  (s : Session) :
  locked s = false ->
  record_times ts obj k s =
  with_commit_objects
    (mk_CommitObjects false
       (if mem_time Before ts
        then bucket_add (before (_commit_objects s)) obj k
        else before (_commit_objects s))
       (if mem_time After ts
        then bucket_add (after (_commit_objects s)) obj k
        else after (_commit_objects s))
       (if mem_time Failed ts
        then bucket_add (failed (_commit_objects s)) obj k
        else failed (_commit_objects s)))
    s.
Proof.
  revert s. induction ts as [|t ts IH]; intros s L.
  - destruct s as [[l b a f] act x cl n]. unfold locked in L.
    simpl in *. now subst.
  - simpl. rewrite IH.
    + destruct s as [[l b a f] act x cl n]. unfold locked in L.
      simpl in L. subst l.
      destruct t; simpl;
        unfold _add_before_commit_object, _add_after_commit_object,
          _add_failed_commit_object; simpl;
        destruct (mem_time Before ts), (mem_time After ts),
          (mem_time Failed ts); simpl;
        now rewrite ?bucket_add_idem.
    + rewrite add_commit_object_unlocked by assumption.
      unfold locked in *. now destruct t.
Qed.

Lemma record_times_same (ts1 ts2 : list Time) (obj : Entity) (k : Kind)
  (s : Session) :
  (forall t, In t ts1 <-> In t ts2) ->
  record_times ts1 obj k s = record_times ts2 obj k s.
Proof.
  intros H. destruct (locked s) eqn:L.
  - now rewrite !record_times_locked.
  - rewrite !record_times_unlocked by assumption.
    now rewrite !(@mem_time_same _ _ _ H).
Qed.

Lemma bucket_of_record_times (ts : list Time) (obj : Entity) (k : Kind)
  (s : Session) (t : Time) :
  locked s = false ->
  In t ts ->
  bucket_of t (record_times ts obj k s) = bucket_add (bucket_of t s) obj k.
Proof.
  intros L Hin. rewrite record_times_unlocked by assumption.
  apply mem_time_In in Hin. unfold bucket_of.
  destruct t; simpl; now rewrite Hin.
Qed.

Section Registration.

Variable applies : ClassId -> ClassId -> bool.

Lemma in_times_of (reg : Registry) (c : ClassId) (k : Kind) (t : Time) :
  In t (times_of applies reg c k) <->
  exists l, In l reg /\ receives applies c k l = true /\ time l = t.
Proof.
  unfold times_of. rewrite in_map_iff. split.
  - intros [l [E Hl]]. apply filter_In in Hl. exists l. tauto.
  - intros [l [Hl [Hr E]]]. exists l. split; [assumption|].
    apply filter_In. tauto.
Qed.

Lemma times_of_same (reg1 reg2 : Registry) (c : ClassId) (k : Kind) :
  (forall l, In l reg1 <-> In l reg2) ->
  forall t,
    In t (times_of applies reg1 c k) <-> In t (times_of applies reg2 c k).
Proof.
  intros H t. rewrite !in_times_of.
  split; intros [l [Hl R]]; exists l; (split; [now apply H | exact R]).
Qed.

Lemma fire_resolved (reg : Registry) (c : ClassId) (k : Kind) (obj : Entity)
  (w : World) (sid : nat) (s : Session) :
  object_session w obj = Some sid ->
  nth_error (sessions w) sid = Some s ->
  fire applies reg c k obj w =
  WNormal
    (mkWorld
       (store (sessions w) sid
              (record_times (times_of applies reg c k) obj k s))
       (object_session w)).
Proof.
  revert w s. induction reg as [|l reg IH]; intros w s Ho Hs.
  - simpl. rewrite store_same by assumption. now rewrite World_eta.
  - simpl. unfold times_of. simpl.
    destruct (receives applies c k l) eqn:R.
    + unfold _build_add_func. rewrite Ho, Hs.
      apply andb_prop in R as [_ Ek].
      destruct (Kind_eqb_spec (action l) k) as [Ea|]; [|discriminate].
      rewrite (IH _ (add_commit_object (time l) obj (action l) s)); simpl.
      * rewrite store_store, Ea. reflexivity.
      * exact Ho.
      * now apply nth_error_store with s.
    + now apply IH.
Qed.

Lemma fire_unresolved (reg : Registry) (c : ClassId) (k : Kind)
  (obj : Entity) (w : World) :
  (forall sid, object_session w obj = Some sid ->
               nth_error (sessions w) sid = None) ->
  fire applies reg c k obj w =
  if existsb (receives applies c k) reg then WRaise AttributeError w
  else WNormal w.
Proof.
  intros Hn. induction reg as [|l reg IH]; simpl; [reflexivity|].
  destruct (receives applies c k l); simpl; [|exact IH].
  unfold _build_add_func.
  destruct (object_session w obj) as [sid|]; [|reflexivity].
  now rewrite (Hn sid eq_refl).
Qed.

Lemma existsb_same (A : Type) (p : A -> bool) (l1 l2 : list A) :
  (forall x, In x l1 <-> In x l2) -> existsb p l1 = existsb p l2.
Proof.
  intros H. apply eq_true_iff_eq. rewrite !existsb_exists.
  split; intros [x [Hx Px]]; exists x; (split; [now apply H | exact Px]).
Qed.

(** Two registries with the same listeners, whatever the number of
    times each is registered, react to an event in the same way. *)
Lemma fire_same_listeners (reg1 reg2 : Registry) (c : ClassId) (k : Kind)
  (obj : Entity) (w : World) :
  (forall l, In l reg1 <-> In l reg2) ->
  fire applies reg1 c k obj w = fire applies reg2 c k obj w.
Proof.
  intros H.
  destruct (object_session w obj) as [sid|] eqn:Ho.
  - destruct (nth_error (sessions w) sid) as [s|] eqn:Hs.
    + rewrite !(fire_resolved _ c k obj w Ho Hs).
      now rewrite (@record_times_same _ _ obj k s (@times_of_same _ _ c k H)).
    + rewrite !fire_unresolved; [now rewrite (@existsb_same _ _ _ _ H)| |];
        intros sid' E; rewrite Ho in E; injection E as <-; exact Hs.
  - rewrite !fire_unresolved; [now rewrite (@existsb_same _ _ _ _ H)| |];
      intros sid' E; rewrite Ho in E; discriminate.
Qed.

Lemma existsb_times_of (reg : Registry) (c : ClassId) (k : Kind) :
  existsb (receives applies c k) reg = true <->
  exists t, In t (times_of applies reg c k).
Proof.
  rewrite existsb_exists. split.
  - intros [l [Hl R]]. exists (time l). apply in_times_of. now exists l.
  - intros [t Ht]. apply in_times_of in Ht as [l [Hl [R _]]]. now exists l.
Qed.

(** The reaction to an event depends on the registry through the set
    of phases of the listeners that receive the event only. *)
Lemma fire_same_times (reg1 reg2 : Registry) (c : ClassId) (k : Kind)
  (obj : Entity) (w : World) :
  (forall t,
      In t (times_of applies reg1 c k) <-> In t (times_of applies reg2 c k)) ->
  fire applies reg1 c k obj w = fire applies reg2 c k obj w.
Proof.
  intros H.
  assert (E : existsb (receives applies c k) reg1 =
              existsb (receives applies c k) reg2).
  { apply eq_true_iff_eq. rewrite !existsb_times_of.
    split; intros [t Ht]; exists t; now apply H. }
  destruct (object_session w obj) as [sid|] eqn:Ho.
  - destruct (nth_error (sessions w) sid) as [s|] eqn:Hs.
    + rewrite !(fire_resolved _ c k obj w Ho Hs).
      now rewrite (@record_times_same _ _ obj k s H).
    + rewrite !fire_unresolved; [now rewrite E| |];
        intros sid' E'; rewrite Ho in E'; injection E' as <-; exact Hs.
  - rewrite !fire_unresolved; [now rewrite E| |];
      intros sid' E'; rewrite Ho in E'; discriminate.
Qed.

End Registration.

Lemma in__register_hooks (c : ClassId) (methods : list HookName)
  (reg : Registry) (l : Listener) :
  In l (_register_hooks c methods reg) <->
  In l reg \/ exists m, In m methods /\ l = mkListener c (snd m) (fst m).
Proof.
  unfold _register_hooks. revert reg.
  induction methods as [|m methods IH]; intros reg; simpl.
  - split; [now left | intros [H|[m [[] _]]]; exact H].
  - rewrite IH, in_app_iff. simpl. split.
    + intros [[H|[H|[]]]|[m' [Hm E]]].
      * now left.
      * right. exists m. split; [now left | now symmetry].
      * right. exists m'. split; [now right | exact E].
    + intros [H|[m' [[->|Hm] E]]].
      * left. now left.
      * left. right. left. now symmetry.
      * right. exists m'. split; assumption.
Qed.

(** Running the registration of a class a second time adds no new
    listener, only copies. *)
Lemma _register_hooks_twice (c : ClassId) (methods : list HookName)
  (reg : Registry) (l : Listener) :
  In l (_register_hooks c methods reg) <->
  In l (_register_hooks c methods (_register_hooks c methods reg)).
Proof. rewrite !in__register_hooks. tauto. Qed.

Lemma HookName_eqb_In (hook : HookName) (l : list HookName) :
  existsb (HookName_eqb hook) l = true <-> In hook l.
Proof.
  rewrite existsb_exists. split.
  - intros [[t k] [Hin E]]. destruct hook as [t' k'].
    unfold HookName_eqb in E. simpl in E. apply andb_prop in E as [Et Ek].
    destruct (Time_eqb_spec t' t); [|discriminate].
    destruct (Kind_eqb_spec k' k); [|discriminate]. now subst.
  - intros Hin. exists hook. split; [assumption|].
    destruct hook as [[] []]; reflexivity.
Qed.

Lemma in__lookup_hooks (hook : HookName) : In hook _lookup_hooks.
Proof. destruct hook as [[] []]; simpl; tauto. Qed.

Lemma getattr_hook_overridden (mro : list ClassDef) (hook : HookName) :
  getattr_hook mro hook <> None <->
  exists c, In c mro /\ In hook (defines c).
Proof.
  induction mro as [|c mro IH]; simpl.
  - split; [congruence | intros [c [[] _]]].
  - destruct (existsb (HookName_eqb hook) (defines c)) eqn:E.
    + split; [|discriminate]. intros _. exists c.
      split; [now left | now apply HookName_eqb_In].
    + rewrite IH. split.
      * intros [c' [Hc Hh]]. exists c'. split; [now right | exact Hh].
      * intros [c' [[<-|Hc] Hh]].
        -- apply HookName_eqb_In in Hh. congruence.
        -- exists c'. split; assumption.
Qed.

(** [_overridden_hooks] of a class has the hooks defined by the class
    or by any of its ancestors. *)
Lemma in__overridden_hooks (mro : list ClassDef) (hook : HookName) :
  In hook (_overridden_hooks mro) <->
  exists c, In c mro /\ In hook (defines c).
Proof.
  unfold _overridden_hooks. rewrite filter_In.
  rewrite <- getattr_hook_overridden. split.
  - intros [_ H]. now destruct (getattr_hook mro hook).
  - intros H. split; [apply in__lookup_hooks|].
    now destruct (getattr_hook mro hook).
Qed.

Lemma _overridden_hooks_inherited (above : list ClassDef) (c : ClassDef)
  (hook : HookName) :
  In hook (_overridden_hooks above) ->
  In hook (_overridden_hooks (c :: above)).
Proof.
  rewrite !in__overridden_hooks. intros [c' [Hc Hh]].
  exists c'. split; [now right | exact Hh].
Qed.

Lemma in__init_subclass__ (c : ClassDef) (above : list ClassDef)
  (reg : Registry) (l : Listener) :
  In l (__init_subclass__ (c :: above) reg) <->
  In l reg
  \/ (target l = cls c
      /\ exists d, In d (c :: above) /\ In (time l, action l) (defines d)).
Proof.
  unfold __init_subclass__. rewrite in__register_hooks.
  split; (intros [H|H]; [now left|right]).
  - destruct H as [[t0 k0] [Hm ->]]. simpl. split; [reflexivity|].
    now apply in__overridden_hooks in Hm.
  - destruct H as [Ht Hd]. exists (time l, action l). split.
    + now apply in__overridden_hooks.
    + destruct l. simpl in *. now subst.
Qed.

(** ** Registration along a chain of classes *)

Lemma declare_chain_app (above l1 l2 : list ClassDef) (reg : Registry) :
  declare_chain above (l1 ++ l2) reg =
  declare_chain (rev l1 ++ above) l2 (declare_chain above l1 reg).
Proof.
  revert above reg. induction l1 as [|c l1 IH]; intros above reg.
  - reflexivity.
  - cbn [declare_chain app rev]. rewrite IH, <- app_assoc. reflexivity.
Qed.

(** Creating classes removes no listener. *)
Lemma declare_chain_keeps (above chain : list ClassDef) (reg : Registry)
  (l : Listener) :
  In l reg -> In l (declare_chain above chain reg).
Proof.
  revert above reg. induction chain as [|c chain IH]; intros above reg H.
  - exact H.
  - cbn [declare_chain]. apply IH, in__init_subclass__. now left.
Qed.

(** A listener installed by the creation of the classes of [chain] is
    on one of them, for a hook defined by one of them or by a class of
    [above]. *)
Lemma declare_chain_adds (above chain : list ClassDef) (reg : Registry)
  (l : Listener) :
  In l (declare_chain above chain reg) ->
  In l reg
  \/ exists d,
       In d chain
       /\ target l = cls d
       /\ exists e,
            In e (rev chain ++ above) /\ In (time l, action l) (defines e).
Proof.
  revert above reg. induction chain as [|c chain IH]; intros above reg H.
  - now left.
  - cbn [declare_chain] in H. apply IH in H as [H|[d [Hd [Ht [e [He Hh]]]]]].
    + apply in__init_subclass__ in H as [H|[Ht [e [He Hh]]]]; [now left|].
      right. exists c. split; [now left|]. split; [exact Ht|].
      exists e. split; [|exact Hh]. cbn [rev]. rewrite <- app_assoc.
      apply in_or_app. now right.
    + right. exists d. split; [now right|]. split; [exact Ht|].
      exists e. split; [|exact Hh]. cbn [rev]. now rewrite <- app_assoc.
Qed.

Section Chains.

Variable applies : ClassId -> ClassId -> bool.

Variables (above below : list ClassDef) (c : ClassDef).

(** The listener of the class itself receives the events of its
    instances. *)
Hypothesis own : applies (cls c) (cls c) = true.

(** The listeners of the classes created after the class do not. *)
Hypothesis later :
  forall d, In d below -> applies (cls d) (cls c) = false.

Lemma receives_own (k : Kind) (t : Time) :
  receives applies (cls c) k (mkListener (cls c) k t) = true.
Proof.
  unfold receives. cbn [target action]. rewrite own.
  now destruct (Kind_eqb_spec k k).
Qed.

Lemma receives_action (k : Kind) (l : Listener) :
  receives applies (cls c) k l = true ->
  applies (target l) (cls c) = true /\ action l = k.
Proof.
  unfold receives. intros R. apply andb_prop in R as [Ra Rk].
  split; [exact Ra|]. now destruct (Kind_eqb_spec (action l) k).
Qed.

(** The phases that the registration of the class alone records for
    an event of one of its instances: those of the hooks of the
    event's kind defined by the class or by an ancestor. *)
Lemma times_of_own (k : Kind) (t : Time) :
  In t (times_of applies (__init_subclass__ (c :: above) []) (cls c) k) <->
  exists e, In e (c :: above) /\ In (t, k) (defines e).
Proof.
  rewrite in_times_of. split.
  - intros [l [Hl [R <-]]]. apply receives_action in R as [_ <-].
    now apply in__init_subclass__ in Hl as [[]|[_ H]].
  - intros H. exists (mkListener (cls c) k t).
    split; [|split; [apply receives_own | reflexivity]].
    apply in__init_subclass__. right. now split.
Qed.

(** The registrations of the ancestors and of the classes created
    later add no phase to them. *)
Lemma times_of_chain (k : Kind) (t : Time) :
  In t (times_of applies (declare_chain [] (rev above ++ c :: below) [])
                 (cls c) k) <->
  exists e, In e (c :: above) /\ In (t, k) (defines e).
Proof.
  rewrite declare_chain_app, rev_involutive, app_nil_r.
  cbn [declare_chain]. rewrite in_times_of. split.
  - intros [l [Hl [R <-]]]. apply receives_action in R as [Ra <-].
    apply declare_chain_adds in Hl as [Hl|[d [Hd [Ht _]]]].
    + apply in__init_subclass__ in Hl as [Hl|[_ H]]; [|exact H].
      apply declare_chain_adds in Hl as [[]|[_ [_ [_ [e [He Hh]]]]]].
      rewrite rev_involutive, app_nil_r in He.
      exists e. split; [now right | exact Hh].
    + rewrite Ht, (later d Hd) in Ra. discriminate.
  - intros H. exists (mkListener (cls c) k t).
    split; [|split; [apply receives_own | reflexivity]].
    apply declare_chain_keeps, in__init_subclass__. right. now split.
Qed.

Lemma fire_chain (k : Kind) (obj : Entity) (w : World) :
  fire applies (declare_chain [] (rev above ++ c :: below) []) (cls c) k obj w
  = fire applies (__init_subclass__ (c :: above) []) (cls c) k obj w.
Proof.
  apply fire_same_times. intros t. now rewrite times_of_chain, times_of_own.
Qed.

End Chains.

(** C10: registering a hook more than once changes nothing.  A class
    registers the hooks of its ancestors again, since
    [_overridden_hooks] of a class contains those of its parent.  When
    the engine delivers the events of the instances of a class to the
    listener of that class, and not to the listeners of the classes
    created after it (whatever it does with those of the ancestors),
    the registry of a whole chain of classes, with the listeners of the
    ancestors and of the later classes, reacts to a mutation event of
    an instance of the class as the registration of the class alone
    does.  In general two registries react to an event in the same way
    as soon as the listeners that receive it have the same phases,
    however many of them there are.  And the event leaves the entity
    once in the bucket of every listener that received it, so that the
    dispatch of that bucket, when no hook raises, calls the hook of the
    entity and kind exactly once. *)
Theorem duplicate_registration_idempotent
  (applies : ClassId -> ClassId -> bool)
  (hooks : Entity -> Time -> Kind -> HookImpl)
  (c : ClassId) (k : Kind) (obj : Entity) (w : World) :
  (forall above cdef hook,
      In hook (_overridden_hooks above) ->
      In hook (_overridden_hooks (cdef :: above)))
  /\ (forall above below cdef,
        cls cdef = c ->
        applies c c = true ->
        (forall d, In d below -> applies (cls d) c = false) ->
        fire applies (declare_chain [] (rev above ++ cdef :: below) [])
             c k obj w
        = fire applies (__init_subclass__ (cdef :: above) []) c k obj w)
  /\ (forall reg1 reg2,
        (forall t,
            In t (times_of applies reg1 c k) <->
            In t (times_of applies reg2 c k)) ->
        fire applies reg1 c k obj w = fire applies reg2 c k obj w)
  /\ forall reg sid s,
       object_session w obj = Some sid ->
       nth_error (sessions w) sid = Some s ->
       locked s = false ->
       (forall t, wf_bucket (bucket_of t s)) ->
       exists s',
         fire applies reg c k obj w =
         WNormal (mkWorld (store (sessions w) sid s') (object_session w))
         /\ forall l,
              In l reg ->
              receives applies c k l = true ->
              count_occ Nat.eq_dec (keys (bucket_of (time l) s')) obj = 1
              /\ forall s2,
                   bucket_of (time l) s2 = bucket_of (time l) s' ->
                   quiet hooks s2 ->
                   plan_ok hooks
                     (dispatch_order (time l) (bucket_of (time l) s2)) = true ->
                   exists tr,
                     _do_commits hooks (time l) s2 =
                     Normal (clear_bucket (time l) (log_calls tr s2))
                     /\ count_occ Call_eq_dec tr (obj, time l, k) = 1.
Proof.
  split; [exact _overridden_hooks_inherited|].
  split; [intros above below cdef <- Hown Hlater; now apply fire_chain|].
  split; [intros reg1 reg2; apply fire_same_times|].
  intros reg sid s Ho Hs L Hwf.
  exists (record_times (times_of applies reg c k) obj k s).
  split; [now apply fire_resolved|].
  intros l Hl R.
  assert (Eb : bucket_of (time l)
                 (record_times (times_of applies reg c k) obj k s) =
               bucket_add (bucket_of (time l) s) obj k).
  { apply bucket_of_record_times; [assumption|].
    apply in_times_of. now exists l. }
  split.
  - rewrite Eb. apply count_occ_keys_wf.
    + apply wf_bucket_add, Hwf.
    + apply in_keys_bucket_add.
  - intros s2 E2 Hq Hok. rewrite Eb in E2.
    now destruct (@recorded_fires_once hooks (time l) obj k _ s2
                    (Hwf (time l)) E2 Hq Hok)
      as [_ [_ H]].
Qed.

(** The chain of class [1] and its subclass [2]: both classes carry a
    listener for the hook of class [1]; an instance of class [2]
    reaches its own. *)
Lemma chain_registry_listeners :
  chain_registry = [mkListener 1 Update After; mkListener 2 Update After]
  /\ times_of exact_class chain_registry 2 Update = [After].
Proof. split; reflexivity. Qed.

Lemma duplicate_registration_idempotent_witness :
  fire exact_class
       (declare_chain []
          [mkClassDef 1 [(After, Update)]; mkClassDef 2 [];
           mkClassDef 3 [(Before, Update)]] [])
       2 Update 5 one_session_world
  = fire exact_class [mkListener 2 Update After] 2 Update 5 one_session_world
  /\ fire exact_class
          (_register_hooks 2 [(After, Update)] chain_registry)
          2 Update 5 one_session_world
     = fire exact_class chain_registry 2 Update 5 one_session_world
  /\ exists s',
       fire exact_class
            (_register_hooks 2 [(After, Update)] chain_registry)
            2 Update 5 one_session_world =
       WNormal (mkWorld [s'] (object_session one_session_world))
       /\ count_occ Nat.eq_dec (keys (bucket_of After s')) 5 = 1.
Proof.
  destruct (@duplicate_registration_idempotent exact_class silent_hooks
              2 Update 5 one_session_world)
    as [_ [Hchain [Htimes Honce]]].
  split.
  - apply (Hchain [mkClassDef 1 [(After, Update)]]
                  [mkClassDef 3 [(Before, Update)]] (mkClassDef 2 [])).
    + reflexivity.
    + reflexivity.
    + intros d [<-|[]]. reflexivity.
  - split.
    + apply Htimes. intros t. simpl. tauto.
    + destruct (Honce (_register_hooks 2 [(After, Update)] chain_registry)
                      0 new_Session)
        as [s' [E H]].
      * reflexivity.
      * reflexivity.
      * reflexivity.
      * intros []; constructor.
      * exists s'. split; [exact E|].
        now destruct (H (mkListener 2 Update After)) as [H1 _];
          [right; left|reflexivity|].
Defined.

(** ** The order of dispatch when hooks may write into the record

    Without the lock a hook can add a kind to an entity of the bucket
    that is being dispatched, or an entity, which stops the loop with
    [RuntimeError].  The calls made are ordered by kind all the same. *)

Section AnyHooks.

Variable hooks : Entity -> Time -> Kind -> HookImpl.

Lemma calls_add_commit_object (t : Time) (obj : Entity) (k : Kind)
  (s : Session) :
  calls (add_commit_object t obj k s) = calls s.
Proof.
  destruct t; simpl;
    unfold _add_before_commit_object, _add_after_commit_object,
      _add_failed_commit_object;
    now destruct (negb (lock (_commit_objects s))).
Qed.

Lemma calls_run_ops (ops : list HookOp) (s : Session) :
  calls (final (run_ops ops s)) = calls s.
Proof.
  revert s. induction ops as [|[t obj k|e] ops IH]; intros s; simpl;
    try reflexivity.
  now rewrite IH, calls_add_commit_object.
Qed.

Lemma calls_call_hook (obj : Entity) (t : Time) (k : Kind) (s : Session) :
  calls (final (call_hook hooks obj t k s)) = calls s ++ [(obj, t, k)].
Proof.
  unfold call_hook, run_hook.
  destruct (hooks obj t k) as [|body]; [reflexivity|].
  now rewrite calls_run_ops.
Qed.

Lemma calls_for_obj (t : Time) (k : Kind) (used rem : nat) (s : Session) :
  exists tr,
    calls (final (for_obj hooks t k used rem s)) = calls s ++ tr
    /\ Forall (of_kind t k) tr.
Proof.
  revert s. induction rem as [|rem IH]; intros s; simpl;
    destruct (negb (length (bucket_of t s) =? used));
    try (exists []; split; [now rewrite app_nil_r | constructor]).
  destruct (nth_error (keys (bucket_of t s)) (used - S rem)) as [obj|];
    [|exists []; split; [now rewrite app_nil_r | constructor]].
  destruct (ks_mem k (bucket_get (bucket_of t s) obj)); [|apply IH].
  pose proof (calls_call_hook obj t k s) as Hc.
  destruct (call_hook hooks obj t k s) as [s1|e s1]; simpl in *.
  - destruct (IH s1) as [tr [E F]]. exists ((obj, t, k) :: tr). split.
    + rewrite E, Hc, <- app_assoc. reflexivity.
    + constructor; [now split | exact F].
  - exists [(obj, t, k)]. split; [exact Hc|].
    constructor; [now split | constructor].
Qed.

Lemma calls_for_types (t : Time) (types : list Kind) (s : Session) :
  exists trs,
    calls (final (for_types hooks t types s)) = calls s ++ concat trs
    /\ Forall2 (fun k tr => Forall (of_kind t k) tr) types trs.
Proof.
  revert s. induction types as [|k types IH]; intros s; simpl.
  - exists []. split; [now rewrite app_nil_r | constructor].
  - unfold for_objects.
    destruct (calls_for_obj t k (length (bucket_of t s))
                (length (bucket_of t s)) s) as [tr [E F]].
    destruct (for_obj hooks t k _ _ s) as [s1|e s1]; simpl in *.
    + destruct (IH s1) as [trs [E' F']]. exists (tr :: trs). split.
      * simpl. now rewrite E', E, app_assoc.
      * now constructor.
    + exists (tr :: map (fun _ => []) types). split.
      * simpl. rewrite E. f_equal.
        clear. induction types; simpl; [now rewrite app_nil_r|assumption].
      * constructor; [exact F|].
        clear. induction types; simpl; constructor; [constructor|assumption].
Qed.

(** X20: whatever the hooks do, and whether or not the dispatch comes
    to an end, the calls made by [_do_commits] are calls of insert hooks,
    then calls of update hooks, then calls of delete hooks, all of the
    phase that is dispatched. *)
Theorem _do_commits_calls_by_kind (t : Time) (s : Session) :
  exists ti tu td,
    calls (final (_do_commits hooks t s)) = calls s ++ ti ++ tu ++ td
    /\ Forall (of_kind t Insert) ti
    /\ Forall (of_kind t Update) tu
    /\ Forall (of_kind t Delete) td.
Proof.
  assert (Hfin : calls (final (_do_commits hooks t s)) =
                 calls (final (for_types hooks t [Insert; Update; Delete] s))).
  { unfold _do_commits.
    now destruct (for_types hooks t [Insert; Update; Delete] s). }
  destruct (calls_for_types t [Insert; Update; Delete] s) as [trs [E F]].
  inversion F as [|? ti ? trs1 Fi F1]; subst.
  inversion F1 as [|? tu ? trs2 Fu F2]; subst.
  inversion F2 as [|? td ? trs3 Fd F3]; subst.
  inversion F3; subst.
  exists ti, tu, td. rewrite Hfin, E. simpl. rewrite app_nil_r.
  repeat split; assumption.
Qed.

End AnyHooks.

(** ** Without the lock

    What the lock prevents: on an unlocked session a hook that records
    a further kind for an entity of the bucket being dispatched gets
    that hook dispatched in the same pass, and a hook that records a
    new entity into that bucket stops the loop with [RuntimeError]. *)

Example unlocked_dispatch_follows_hook_writes :
  calls (final (_do_commits recording_hooks After flushed_session)) =
  [(1, After, Insert); (1, After, Update)].
Proof. reflexivity. Qed.

Example unlocked_dispatch_RuntimeError :
  raised (_do_commits recording_hooks Before flushed_session) =
  Some RuntimeError.
Proof. reflexivity. Qed.

Example locked_dispatch_returns :
  raised (_do_before_commits recording_hooks flushed_session) = None
  /\ calls (final (_do_before_commits recording_hooks flushed_session)) =
     [(1, Before, Insert); (2, Before, Delete)].
Proof. split; reflexivity. Qed.

(** ** The tests of the repository, on the model *)

Example test_add_before_commit_object :
  let session :=
    fold_left (fun s type_ => _add_before_commit_object mock_obj type_ s)
              [Delete; Insert; Update; Update] new_Session in
  ks_len (bucket_get (before (_commit_objects session)) mock_obj) = 3.
Proof. reflexivity. Qed.

Example test_add_after_commit_object :
  let session :=
    fold_left (fun s type_ => _add_after_commit_object mock_obj type_ s)
              [Delete; Delete] new_Session in
  ks_mem Delete (bucket_get (after (_commit_objects session)) mock_obj) = true
  /\ ks_len (bucket_get (after (_commit_objects session)) mock_obj) = 1.
Proof. split; reflexivity. Qed.

Example test_do_before_commits :
  calls (final (_do_before_commits silent_hooks
                  (_add_before_commit_object mock_obj Insert new_Session))) =
  [(mock_obj, Before, Insert)].
Proof. reflexivity. Qed.

Example test_do_after_commits :
  calls (final (_do_after_commits silent_hooks
                  (_add_after_commit_object mock_obj Insert new_Session))) =
  [(mock_obj, After, Insert)].
Proof. reflexivity. Qed.

Example test_do_commits_order :
  let session :=
    fold_left (fun s type_ => _add_before_commit_object mock_obj type_ s)
              [Delete; Insert; Update] new_Session in
  calls (final (_do_before_commits silent_hooks session)) =
  [(mock_obj, Before, Insert); (mock_obj, Before, Update);
   (mock_obj, Before, Delete)].
Proof. reflexivity. Qed.

Example test_do_commits_cleared :
  let session := _add_before_commit_object mock_obj Insert new_Session in
  calls (final (_do_before_commits silent_hooks session
                >>= _do_before_commits silent_hooks)) =
  [(mock_obj, Before, Insert)].
Proof. reflexivity. Qed.

Example test_direct_inheritance :
  _overridden_hooks [Direct] = [(Before, Update)].
Proof. reflexivity. Qed.

Example test_overridden_inheritance :
  _overridden_hooks [Overridden_; Direct] = [(Before, Update)].
Proof. reflexivity. Qed.

Example test_skipped_inheritance :
  _overridden_hooks [Skipped; Direct] = [(Before, Update)].
Proof. reflexivity. Qed.

Example test_skipped_sub :
  _overridden_hooks [SkippedSub; Skipped; Direct] =
  [(Before, Insert); (Before, Update)].
Proof. reflexivity. Qed.

Example test_multiple_inheritance :
  _overridden_hooks [Multiple; Direct] = [(Before, Update); (Before, Delete)].
Proof. reflexivity. Qed.

Example test_all :
  length (_register_hooks 0 _lookup_hooks []) = 9
  /\ Forall (fun l => target l = 0) (_register_hooks 0 _lookup_hooks []).
Proof. split; [reflexivity | repeat constructor]. Qed.

(** ** A raising hook, seen from the handlers

    Nothing between the hook and the engine catches the exception, and
    the statements that would follow the dispatch are not run. *)

Section Propagation.

Variable hooks : Entity -> Time -> Kind -> HookImpl.

Lemma before_commit_raise (pending : list HookOp) (s s1 : Session) :
  flush pending s = Normal s1 ->
  plan_ok hooks (dispatch_order Before (bucket_of Before s1)) = false ->
  exists e,
    raised (before_commit hooks pending s) = Some e
    /\ _commit_objects (final (before_commit hooks pending s)) =
       set_lock true (_commit_objects s1)
    /\ _after_failed_commit_active (final (before_commit hooks pending s)) =
       true.
Proof.
  intros Hf Hbad. unfold before_commit. rewrite Hf. fields.
  unfold _do_before_commits.
  destruct (@_do_commits_abort hooks Before
              (assign_lock true (with_active true s1)))
    as [e [done [c [rest [_ [_ [_ E]]]]]]];
    [now left | exact Hbad |].
  exists e. rewrite E. repeat split.
Qed.

Lemma after_commit_raise (s : Session) :
  quiet hooks s ->
  plan_ok hooks (dispatch_order After (bucket_of After s)) = false ->
  exists e,
    raised (after_commit hooks s) = Some e
    /\ _commit_objects (final (after_commit hooks s)) = _commit_objects s
    /\ _after_failed_commit_active (final (after_commit hooks s)) = false.
Proof.
  intros Hq Hbad. unfold after_commit, _do_after_commits.
  pose (s1 := with_transaction (Some (TmpTxn (fresh s)))
                (snd (SessionTransaction (with_active false s)))).
  destruct (@_do_commits_abort hooks After s1)
    as [e [done [c [rest [_ [_ [_ E]]]]]]].
  - exact (quiet_same_lock (s := s) s1 eq_refl Hq).
  - exact Hbad.
  - exists e. rewrite (_tmp_transaction_raises _ _ E). repeat split.
Qed.

Lemma after_failed_commit_raise (s : Session) :
  _after_failed_commit_active s = true ->
  quiet hooks s ->
  plan_ok hooks (dispatch_order Failed (bucket_of Failed s)) = false ->
  exists e,
    raised (after_failed_commit hooks s) = Some e
    /\ _commit_objects (final (after_failed_commit hooks s)) =
       _commit_objects s
    /\ _after_failed_commit_active (final (after_failed_commit hooks s)) =
       true.
Proof.
  intros Ha Hq Hbad. unfold after_failed_commit, _do_failed_commits.
  rewrite Ha.
  pose (s1 := with_transaction (Some (TmpTxn (fresh s)))
                (snd (SessionTransaction s))).
  destruct (@_do_commits_abort hooks Failed s1)
    as [e [done [c [rest [_ [_ [_ E]]]]]]].
  - exact (quiet_same_lock (s := s) s1 eq_refl Hq).
  - exact Hbad.
  - exists e. rewrite (_tmp_transaction_raises _ _ E). fields.
    repeat split. exact Ha.
Qed.

End Propagation.

(** ** A registry guarded against copies *)

(** Dropping the copies of the listeners from a registry changes
    nothing in the reaction to an event. *)
Corollary fire_nodup (applies : ClassId -> ClassId -> bool) (reg : Registry)
  (c : ClassId) (k : Kind) (obj : Entity) (w : World) :
  fire applies (nodup Listener_eq_dec reg) c k obj w =
  fire applies reg c k obj w.
Proof. apply fire_same_listeners. intros l. apply nodup_In. Qed.

(** * Further properties *)

(** ** What the dispatch leaves alone *)

Lemma same_frame_refl (s : Session) : same_frame s s.
Proof. repeat split. Qed.

Lemma same_frame_trans (s1 s2 s3 : Session) :
  same_frame s1 s2 -> same_frame s2 s3 -> same_frame s1 s3.
Proof.
  unfold same_frame. intros [A [B [C D]]] [A' [B' [C' D']]].
  repeat split; congruence.
Qed.

Lemma add_commit_object_frame (t : Time) (obj : Entity) (k : Kind)
  (s : Session) :
  same_frame s (add_commit_object t obj k s).
Proof.
  destruct (locked s) eqn:L.
  - rewrite add_commit_object_locked by assumption. apply same_frame_refl.
  - rewrite add_commit_object_unlocked by assumption.
    unfold same_frame, locked in *. destruct t; repeat split; exact L.
Qed.

Lemma run_ops_frame (ops : list HookOp) (s : Session) :
  same_frame s (final (run_ops ops s)).
Proof.
  revert s. induction ops as [|[t obj k|e] ops IH]; intros s; simpl;
    try apply same_frame_refl.
  eapply same_frame_trans; [apply add_commit_object_frame | apply IH].
Qed.

Lemma run_ops_succeeds (ops : list HookOp) (s : Session) :
  first_throw ops = None -> run_ops ops s = Normal (final (run_ops ops s)).
Proof.
  revert s. induction ops as [|[t obj k|e] ops IH]; intros s; simpl;
    [reflexivity | apply IH | discriminate].
Qed.

Section Frame.

Variable hooks : Entity -> Time -> Kind -> HookImpl.

Lemma call_hook_frame (obj : Entity) (t : Time) (k : Kind) (s : Session) :
  same_frame s (final (call_hook hooks obj t k s)).
Proof.
  unfold call_hook, run_hook.
  destruct (hooks obj t k) as [|body]; [repeat split|].
  exact (run_ops_frame body (log_call (obj, t, k) s)).
Qed.

Lemma for_obj_frame (t : Time) (k : Kind) (used rem : nat) (s : Session) :
  same_frame s (final (for_obj hooks t k used rem s)).
Proof.
  revert s. induction rem as [|rem IH]; intros s; simpl;
    destruct (negb (length (bucket_of t s) =? used));
    try apply same_frame_refl.
  destruct (nth_error (keys (bucket_of t s)) (used - S rem)) as [obj|];
    [|apply same_frame_refl].
  destruct (ks_mem k (bucket_get (bucket_of t s) obj)); [|apply IH].
  pose proof (call_hook_frame obj t k s) as Hc.
  destruct (call_hook hooks obj t k s) as [s1|e s1]; simpl in *;
    [|exact Hc].
  eapply same_frame_trans; [exact Hc | apply IH].
Qed.

Lemma for_types_frame (t : Time) (types : list Kind) (s : Session) :
  same_frame s (final (for_types hooks t types s)).
Proof.
  revert s. induction types as [|k types IH]; intros s; simpl;
    [apply same_frame_refl|].
  unfold for_objects.
  pose proof (for_obj_frame t k (length (bucket_of t s))
                (length (bucket_of t s)) s) as Hf.
  destruct (for_obj hooks t k _ _ s) as [s1|e s1]; simpl in *; [|exact Hf].
  eapply same_frame_trans; [exact Hf | apply IH].
Qed.

Lemma _do_commits_frame (t : Time) (s : Session) :
  same_frame s (final (_do_commits hooks t s)).
Proof.
  unfold _do_commits.
  pose proof (for_types_frame t [Insert; Update; Delete] s) as Hf.
  destruct (for_types hooks t [Insert; Update; Delete] s) as [s1|e s1];
    simpl in *; [|exact Hf].
  eapply same_frame_trans; [exact Hf|].
  unfold same_frame, locked. destruct t; repeat split.
Qed.

Lemma for_types_empty (t : Time) (types : list Kind) (s : Session) :
  bucket_of t s = [] -> for_types hooks t types s = Normal s.
Proof.
  intros E. induction types as [|k types IH]; simpl; [reflexivity|].
  unfold for_objects. rewrite E. simpl. rewrite E. simpl. exact IH.
Qed.

Lemma _do_commits_returns_cleared (t : Time) (s s1 : Session) :
  _do_commits hooks t s = Normal s1 ->
  exists s', s1 = clear_bucket t s'.
Proof.
  unfold _do_commits.
  destruct (for_types hooks t [Insert; Update; Delete] s) as [s'|e s'];
    simpl; [|discriminate].
  intros [= <-]. now exists s'.
Qed.

Lemma clear_bucket_idem (t : Time) (s : Session) :
  clear_bucket t (clear_bucket t s) = clear_bucket t s.
Proof. now destruct t. Qed.

Lemma assign_lock_same (s : Session) : assign_lock (locked s) s = s.
Proof. now destruct s as [[l b a f] act x cl n]. Qed.

(** X1: a dispatch that has returned has nothing left to dispatch.
    When [_do_commits] returns normally, running it again on the
    session it returned calls no hook and returns that same session;
    the same holds for [_do_before_commits].  No assumption is made on
    the hooks. *)
Theorem redispatch_calls_nothing (t : Time) (s s1 s2 : Session) :
  (_do_commits hooks t s = Normal s1 ->
   _do_commits hooks t s1 = Normal s1)
  /\ (_do_before_commits hooks s = Normal s2 ->
      _do_before_commits hooks s2 = Normal s2).
Proof.
  assert (H : forall t0 s0 s', _do_commits hooks t0 s0 = Normal s' ->
                               _do_commits hooks t0 s' = Normal s').
  { intros t0 s0 s' E.
    destruct (_do_commits_returns_cleared _ _ E) as [x ->].
    unfold _do_commits. rewrite for_types_empty.
    - simpl. now rewrite clear_bucket_idem.
    - unfold bucket_of. now destruct t0. }
  split; [apply H|].
  unfold _do_before_commits. intros E.
  pose proof (_do_commits_frame Before (assign_lock true s)) as [L _].
  rewrite E in L. simpl in L.
  change (locked (assign_lock true s)) with true in L.
  rewrite <- L, assign_lock_same. exact (H _ _ _ E).
Qed.

End Frame.

Lemma redispatch_calls_nothing_witness :
  exists s1,
    _do_before_commits recording_hooks flushed_session = Normal s1
    /\ _do_before_commits recording_hooks s1 = Normal s1
    /\ calls s1 = [(1, Before, Insert); (2, Before, Delete)].
Proof.
  eexists. split; [reflexivity|]. split; [|reflexivity].
  apply (proj2 (redispatch_calls_nothing recording_hooks Before
                  flushed_session flushed_session _)).
  reflexivity.
Defined.

(** ** What a dispatch delivers *)

Lemma in_dispatch_order_iff (t : Time) (b : Bucket) (c : Call) :
  In c (dispatch_order t b) <->
  call_time c = t /\ tracked b (call_obj c) (call_kind c) = true.
Proof.
  split; [apply in_dispatch_order|].
  destruct c as [[obj t'] k]. unfold call_time, call_obj, call_kind. simpl.
  intros [-> H]. apply (in_hooks_for_tracked t) in H.
  unfold dispatch_order. rewrite !in_app_iff.
  destruct k; tauto.
Qed.

Lemma NoDup_dispatch_order (t : Time) (b : Bucket) :
  wf_bucket b -> NoDup (dispatch_order t b).
Proof.
  intros Hwf. apply (NoDup_count_occ Call_eq_dec). intros c.
  destruct (in_dec Call_eq_dec c (dispatch_order t b)) as [Hin|Hout].
  - apply in_dispatch_order in Hin as [Ht Htr].
    destruct c as [[obj t'] k]. unfold call_time in Ht. simpl in *. subst t'.
    rewrite count_dispatch_order by assumption. lia.
  - apply (count_occ_not_In Call_eq_dec) in Hout. rewrite Hout. lia.
Qed.

(** X2: a dispatch in which no hook raises delivers each tracked entry
    once and delivers nothing else: the hooks called are those of the
    phase dispatched, for the entities and kinds tracked in the bucket,
    every such hook is called, and none is called twice. *)
Theorem dispatch_delivers_tracked_once
  (hooks : Entity -> Time -> Kind -> HookImpl) (t : Time) (s : Session) :
  quiet hooks s ->
  wf_bucket (bucket_of t s) ->
  plan_ok hooks (dispatch_order t (bucket_of t s)) = true ->
  exists tr,
    _do_commits hooks t s = Normal (clear_bucket t (log_calls tr s))
    /\ NoDup tr
    /\ forall obj t' k,
         In (obj, t', k) tr <->
         t' = t /\ tracked (bucket_of t s) obj k = true.
Proof.
  intros Hq Hwf Hok. exists (dispatch_order t (bucket_of t s)).
  split; [now apply _do_commits_ok|].
  split; [now apply NoDup_dispatch_order|].
  intros obj t' k. apply in_dispatch_order_iff.
Qed.

Lemma dispatch_delivers_tracked_once_witness :
  exists tr,
    _do_commits silent_hooks Before flushed_session =
    Normal (clear_bucket Before (log_calls tr flushed_session))
    /\ NoDup tr
    /\ forall obj t' k,
         In (obj, t', k) tr <->
         t' = Before /\ tracked (bucket_of Before flushed_session) obj k = true.
Proof.
  apply dispatch_delivers_tracked_once.
  - right. exact silent_hooks_inert.
  - repeat constructor; simpl; intuition discriminate.
  - reflexivity.
Defined.

(** ** Whole commit cycles *)

Section Cycles.

Variable hooks : Entity -> Time -> Kind -> HookImpl.

Lemma before_commit_ok (pending : list HookOp) (s : Session) :
  first_throw pending = None ->
  plan_ok hooks
    (dispatch_order Before (bucket_of Before (final (flush pending s)))) =
  true ->
  before_commit hooks pending s =
  Normal
    (mkSession
       (mk_CommitObjects true []
          (bucket_of After (final (flush pending s)))
          (bucket_of Failed (final (flush pending s))))
       true (transaction s)
       (calls s
        ++ dispatch_order Before (bucket_of Before (final (flush pending s))))
       (fresh s)).
Proof.
  intros Hf Hok. unfold before_commit.
  pose proof (run_ops_frame pending s) as [_ [_ [Hx Hn]]].
  pose proof (calls_run_ops pending s) as Hc.
  unfold flush in *. rewrite (run_ops_succeeds pending s Hf). fields.
  rewrite _do_before_commits_ok by exact Hok. fields.
  now rewrite Hx, Hn, Hc.
Qed.

(** X3: a commit that succeeds.  When neither the flush nor a before
    or after hook raises, [before_commit] followed by [after_commit]
    calls the hooks of the before bucket and then those of the after
    bucket, as the flush left them, each in dispatch order, calls no
    failed hook, and leaves the change record empty and unlocked, the
    flag cleared and the transaction reference as it was, whatever the
    session held before. *)
Theorem commit_cycle_succeeds (pending : list HookOp) (s : Session) :
  first_throw pending = None ->
  plan_ok hooks
    (dispatch_order Before (bucket_of Before (final (flush pending s)))) =
  true ->
  plan_ok hooks
    (dispatch_order After (bucket_of After (final (flush pending s)))) =
  true ->
  before_commit hooks pending s >>= after_commit hooks =
  Normal
    (mkSession new_CommitObjects false (transaction s)
       (calls s
        ++ dispatch_order Before (bucket_of Before (final (flush pending s)))
        ++ dispatch_order After (bucket_of After (final (flush pending s))))
       (S (fresh s))).
Proof.
  intros Hf Hb Ha. rewrite before_commit_ok by assumption. fields.
  rewrite after_commit_ok; fields; [|now left|exact Ha].
  now rewrite <- app_assoc.
Qed.

(** X4: a commit that fails.  When neither the flush nor a before or
    failed hook raises, [before_commit] followed by the rollback
    signal calls the hooks of the before bucket and then those of the
    failed bucket, calls no after hook, and leaves the change record
    empty and unlocked and the flag cleared; a further rollback signal
    then changes nothing. *)
Theorem commit_cycle_fails (pending : list HookOp) (s : Session) :
  first_throw pending = None ->
  plan_ok hooks
    (dispatch_order Before (bucket_of Before (final (flush pending s)))) =
  true ->
  plan_ok hooks
    (dispatch_order Failed (bucket_of Failed (final (flush pending s)))) =
  true ->
  exists s',
    before_commit hooks pending s >>= after_failed_commit hooks = Normal s'
    /\ s' =
       mkSession new_CommitObjects false (transaction s)
         (calls s
          ++ dispatch_order Before (bucket_of Before (final (flush pending s)))
          ++ dispatch_order Failed (bucket_of Failed (final (flush pending s))))
         (S (fresh s))
    /\ after_failed_commit hooks s' = Normal s'.
Proof.
  intros Hf Hb Ha. eexists. split; [|split; [reflexivity|reflexivity]].
  rewrite before_commit_ok by assumption. fields.
  unfold after_failed_commit. fields.
  rewrite _do_failed_commits_ok; fields; [|now left|exact Ha].
  now rewrite <- app_assoc.
Qed.

End Cycles.

Lemma commit_cycle_succeeds_witness :
  before_commit recording_hooks (insert_flush 3) flushed_session
  >>= after_commit recording_hooks =
  Normal
    (mkSession new_CommitObjects false None
       [(1, Before, Insert); (3, Before, Insert); (2, Before, Delete);
        (1, After, Insert); (3, After, Insert)] 1).
Proof.
  now rewrite (@commit_cycle_succeeds recording_hooks (insert_flush 3)
                 flushed_session eq_refl eq_refl eq_refl).
Defined.

Lemma commit_cycle_fails_witness :
  exists s',
    before_commit recording_hooks (insert_flush 3) flushed_session
    >>= after_failed_commit recording_hooks = Normal s'
    /\ calls s' =
       [(1, Before, Insert); (3, Before, Insert); (2, Before, Delete);
        (1, Failed, Insert); (3, Failed, Insert)]
    /\ after_failed_commit recording_hooks s' = Normal s'.
Proof.
  destruct (@commit_cycle_fails recording_hooks (insert_flush 3)
              flushed_session eq_refl eq_refl eq_refl) as [s' [E [-> F]]].
  eexists. split; [exact E|]. split; [reflexivity|exact F].
Defined.

(** ** The handlers when something raises *)

Lemma run_ops_throws (ops : list HookOp) (s : Session) (e : Exn) :
  first_throw ops = Some e -> run_ops ops s = Raise e (final (run_ops ops s)).
Proof.
  revert s. induction ops as [|[t obj k|e'] ops IH]; intros s; simpl.
  - discriminate.
  - apply IH.
  - now intros [= ->].
Qed.

Section Aborted.

Variable hooks : Entity -> Time -> Kind -> HookImpl.

(** X5: a flush that fails inside [before_commit].  The exception
    leaves the handler before the flag and the lock are set and before
    any hook is called; the entries recorded before the failure stay
    in the buckets.  If no commit was under way, the rollback signal
    that follows calls no failed hook and changes nothing. *)
Theorem failed_flush_skips_commit (pending : list HookOp) (s : Session)
  (e : Exn) :
  first_throw pending = Some e ->
  before_commit hooks pending s = Raise e (final (flush pending s))
  /\ same_frame s (final (flush pending s))
  /\ calls (final (flush pending s)) = calls s
  /\ (_after_failed_commit_active s = false ->
      after_failed_commit hooks (final (flush pending s)) =
      Normal (final (flush pending s))).
Proof.
  intros Hf. unfold before_commit, flush.
  rewrite (run_ops_throws pending s Hf). fields.
  pose proof (run_ops_frame pending s) as Hfr.
  split; [reflexivity|]. split; [exact Hfr|].
  split; [apply calls_run_ops|].
  intros Ha. destruct Hfr as [_ [Hb _]]. unfold after_failed_commit.
  rewrite Hb, Ha. fields.
  rewrite <- Ha, <- Hb. now rewrite with_active_same.
Qed.

(** X6: a before hook that raises.  The hooks before it in the
    dispatch order have been called, those after it have not; the
    exception leaves [before_commit] with the flag and the lock set and
    with the before bucket, like the other two, as the flush left
    it. *)
Theorem before_commit_aborted (pending : list HookOp) (s : Session) :
  first_throw pending = None ->
  plan_ok hooks
    (dispatch_order Before (bucket_of Before (final (flush pending s)))) =
  false ->
  exists e done c rest,
    dispatch_order Before (bucket_of Before (final (flush pending s))) =
    done ++ c :: rest
    /\ plan_ok hooks done = true
    /\ call_raises hooks c = Some e
    /\ before_commit hooks pending s =
       Raise e
         (mkSession
            (set_lock true (_commit_objects (final (flush pending s))))
            true (transaction s) (calls s ++ done ++ [c]) (fresh s)).
Proof.
  intros Hf Hbad. unfold before_commit.
  pose proof (run_ops_frame pending s) as [_ [_ [Hx Hn]]].
  pose proof (calls_run_ops pending s) as Hc.
  unfold flush in *. rewrite (run_ops_succeeds pending s Hf). fields.
  unfold _do_before_commits.
  destruct (@_do_commits_abort hooks Before
              (assign_lock true
                 (with_active true (final (run_ops pending s)))))
    as [e [done [c [rest [Ep [Hd [He E]]]]]]];
    [now left | exact Hbad |].
  exists e, done, c, rest. repeat split; try assumption.
  rewrite E. unfold log_calls. fields. now rewrite Hx, Hn, Hc.
Qed.

(** X7: an after hook that raises.  The exception leaves
    [after_commit] with the flag cleared, the change record untouched
    (the after bucket not cleared, the failed bucket not cleared, the
    lock still set if it was) and the transaction reference pointing at
    the temporary transaction. *)
Theorem after_commit_aborted (s : Session) :
  quiet hooks s ->
  plan_ok hooks (dispatch_order After (bucket_of After s)) = false ->
  exists e done c rest,
    dispatch_order After (bucket_of After s) = done ++ c :: rest
    /\ plan_ok hooks done = true
    /\ call_raises hooks c = Some e
    /\ after_commit hooks s =
       Raise e
         (mkSession (_commit_objects s) false (Some (TmpTxn (fresh s)))
                    (calls s ++ done ++ [c]) (S (fresh s))).
Proof.
  intros Hq Hbad. unfold after_commit, _do_after_commits.
  pose (s1 := with_transaction (Some (TmpTxn (fresh s)))
                (snd (SessionTransaction (with_active false s)))).
  destruct (@_do_commits_abort hooks After s1)
    as [e [done [c [rest [Ep [Hd [He E]]]]]]].
  - exact (quiet_same_lock (s := s) s1 eq_refl Hq).
  - exact Hbad.
  - exists e, done, c, rest. repeat split; try assumption.
    now rewrite (_tmp_transaction_raises _ _ E).
Qed.

(** X8: a failed hook that raises.  The exception leaves
    [after_failed_commit] before the flag is cleared: the flag is still
    set, the change record is untouched, and the transaction reference
    points at the temporary transaction. *)
Theorem after_failed_commit_aborted (s : Session) :
  _after_failed_commit_active s = true ->
  quiet hooks s ->
  plan_ok hooks (dispatch_order Failed (bucket_of Failed s)) = false ->
  exists e done c rest,
    dispatch_order Failed (bucket_of Failed s) = done ++ c :: rest
    /\ plan_ok hooks done = true
    /\ call_raises hooks c = Some e
    /\ after_failed_commit hooks s =
       Raise e
         (mkSession (_commit_objects s) true (Some (TmpTxn (fresh s)))
                    (calls s ++ done ++ [c]) (S (fresh s))).
Proof.
  intros Ha Hq Hbad. unfold after_failed_commit, _do_failed_commits.
  rewrite Ha.
  pose (s1 := with_transaction (Some (TmpTxn (fresh s)))
                (snd (SessionTransaction s))).
  destruct (@_do_commits_abort hooks Failed s1)
    as [e [done [c [rest [Ep [Hd [He E]]]]]]].
  - exact (quiet_same_lock (s := s) s1 eq_refl Hq).
  - exact Hbad.
  - exists e, done, c, rest. repeat split; try assumption.
    rewrite (_tmp_transaction_raises _ _ E). fields.
    unfold log_calls, s1. simpl. now rewrite Ha.
Qed.

(** X9: a session whose after dispatch was aborted does not recover by
    committing again.  On a locked session with an empty before bucket
    and an after bucket that holds a raising hook, the next
    [before_commit] discards its whole flush and calls no hook, and the
    next [after_commit] raises again, leaving the change record as it
    was. *)
Theorem aborted_after_dispatch_repeats (pending : list HookOp)
  (s : Session) :
  locked s = true ->
  bucket_of Before s = [] ->
  plan_ok hooks (dispatch_order After (bucket_of After s)) = false ->
  first_throw pending = None ->
  exists s1 e,
    before_commit hooks pending s = Normal s1
    /\ calls s1 = calls s
    /\ raised (after_commit hooks s1) = Some e
    /\ _commit_objects (final (after_commit hooks s1)) = _commit_objects s.
Proof.
  intros L Hb Hbad Hf.
  assert (Es : final (flush pending s) = s).
  { unfold flush. rewrite run_ops_discard by now left. now rewrite Hf. }
  eexists.
  assert (Eb : before_commit hooks pending s =
               Normal (mkSession (_commit_objects s) true (transaction s)
                         (calls s) (fresh s))).
  { rewrite before_commit_ok; rewrite ?Es; rewrite ?Hb; try assumption;
      [|reflexivity].
    unfold dispatch_order, hooks_for, hooks_among. simpl.
    rewrite app_nil_r. f_equal. f_equal.
    destruct s as [[l b a f] act x cl n]. unfold locked, bucket_of in *.
    simpl in *. now subst. }
  pose (s0 := mkSession (_commit_objects s) true (transaction s)
                (calls s) (fresh s)).
  pose (s1 := with_transaction (Some (TmpTxn (fresh s0)))
                (snd (SessionTransaction (with_active false s0)))).
  destruct (@_do_commits_abort hooks After s1)
    as [e [done [c [rest [_ [_ [_ E]]]]]]].
  - now left.
  - exact Hbad.
  - assert (Ea : after_commit hooks s0 =
                 Raise e (log_calls (done ++ [c]) s1)).
    { unfold after_commit, _do_after_commits.
      now rewrite (_tmp_transaction_raises _ _ E). }
    exists e. split; [exact Eb|]. split; [reflexivity|].
    split; [exact (f_equal raised Ea)|].
    exact (f_equal (fun m => _commit_objects (final m)) Ea).
Qed.

End Aborted.

Lemma failed_flush_skips_commit_witness :
  before_commit silent_hooks failing_flush new_Session =
  Raise (UserError 3) (final (flush failing_flush new_Session))
  /\ bucket_of Before (final (flush failing_flush new_Session)) =
     [(1, ks_add Insert ks_empty)]
  /\ after_failed_commit silent_hooks (final (flush failing_flush new_Session))
     = Normal (final (flush failing_flush new_Session)).
Proof.
  destruct (@failed_flush_skips_commit silent_hooks failing_flush
              new_Session (UserError 3) eq_refl) as [E [_ [_ H]]].
  split; [exact E|]. split; [reflexivity|]. now apply H.
Defined.

Lemma before_commit_aborted_witness :
  exists e done c rest,
    dispatch_order Before
      (bucket_of Before (final (flush three_inserts_flush new_Session))) =
    done ++ c :: rest
    /\ plan_ok second_raises done = true
    /\ call_raises second_raises c = Some e
    /\ before_commit second_raises three_inserts_flush new_Session =
       Raise e
         (mkSession
            (set_lock true
               (_commit_objects
                  (final (flush three_inserts_flush new_Session))))
            true (transaction new_Session)
            (calls new_Session ++ done ++ [c]) (fresh new_Session)).
Proof.
  apply (@before_commit_aborted second_raises three_inserts_flush
           new_Session); reflexivity.
Defined.

Lemma after_commit_aborted_witness :
  exists e done c rest,
    dispatch_order After (bucket_of After pending_commit_session) =
    done ++ c :: rest
    /\ plan_ok raising_after_hooks done = true
    /\ call_raises raising_after_hooks c = Some e
    /\ after_commit raising_after_hooks pending_commit_session =
       Raise e
         (mkSession (_commit_objects pending_commit_session) false
            (Some (TmpTxn (fresh pending_commit_session)))
            (calls pending_commit_session ++ done ++ [c])
            (S (fresh pending_commit_session))).
Proof.
  apply (@after_commit_aborted raising_after_hooks pending_commit_session).
  - now left.
  - reflexivity.
Defined.

Lemma after_failed_commit_aborted_witness :
  exists e done c rest,
    dispatch_order Failed (bucket_of Failed pending_commit_session) =
    done ++ c :: rest
    /\ plan_ok raising_failed_hooks done = true
    /\ call_raises raising_failed_hooks c = Some e
    /\ after_failed_commit raising_failed_hooks pending_commit_session =
       Raise e
         (mkSession (_commit_objects pending_commit_session) true
            (Some (TmpTxn (fresh pending_commit_session)))
            (calls pending_commit_session ++ done ++ [c])
            (S (fresh pending_commit_session))).
Proof.
  apply (@after_failed_commit_aborted raising_failed_hooks
           pending_commit_session).
  - reflexivity.
  - now left.
  - reflexivity.
Defined.

Lemma aborted_after_dispatch_repeats_witness :
  exists s1 e,
    before_commit raising_after_hooks (insert_flush 2) aborted_commit_session
    = Normal s1
    /\ calls s1 = calls aborted_commit_session
    /\ raised (after_commit raising_after_hooks s1) = Some e
    /\ _commit_objects (final (after_commit raising_after_hooks s1)) =
       _commit_objects aborted_commit_session.
Proof.
  apply (@aborted_after_dispatch_repeats raising_after_hooks (insert_flush 2)
           aborted_commit_session); reflexivity.
Defined.

(** ** The flag and the lock along the signals of the engine *)

Section Protocol.

Variable hooks : Entity -> Time -> Kind -> HookImpl.

Hypothesis hooks_never_raise :
  forall obj t k, hook_raises (hooks obj t k) = None.

Lemma handle_keeps_agreement (sig : Signal) (rest : list Signal)
  (s : Session) :
  flushes_succeed (sig :: rest) = true ->
  well_ordered (locked s) (sig :: rest) = true ->
  _after_failed_commit_active s = locked s ->
  exists s1,
    handle hooks sig s = Normal s1
    /\ _after_failed_commit_active s1 = locked s1
    /\ locked s1 = pending_after (locked s) [sig]
    /\ flushes_succeed rest = true
    /\ well_ordered (locked s1) rest = true.
Proof.
  intros Hf Hw Hag. destruct sig as [pending|pending| |]; simpl in *.
  - destruct (first_throw pending) eqn:Ef; [discriminate|].
    pose proof (run_ops_frame pending s) as [L [A _]].
    unfold flush. rewrite (run_ops_succeeds pending s Ef).
    exists (final (run_ops pending s)).
    repeat split; try assumption; rewrite ?L; congruence.
  - destruct (first_throw pending) eqn:Ef; [discriminate|].
    eexists. split.
    + apply before_commit_ok; [exact Ef|].
      now apply plan_ok_never_raises.
    + repeat split; assumption.
  - apply andb_prop in Hw as [Hp Hw]. eexists. split.
    + apply after_commit_ok; [now left|].
      now apply plan_ok_never_raises.
    + repeat split; assumption.
  - unfold after_failed_commit. rewrite Hag.
    destruct (locked s) eqn:L.
    + eexists. split.
      * rewrite _do_failed_commits_ok;
          [reflexivity | now left | now apply plan_ok_never_raises].
      * repeat split; assumption.
    + exists s. split.
      * unfold bind. rewrite <- Hag. now rewrite with_active_same.
      * rewrite ?L. repeat split; assumption.
Qed.

Lemma pending_after_cons (p : bool) (sig : Signal) (rest : list Signal) :
  pending_after p (sig :: rest) = pending_after (pending_after p [sig]) rest.
Proof. now destruct sig. Qed.

(** X10: the flag and the lock go together.  Along any sequence of
    signals in which the engine sends ["after_commit"] only for a
    commit it has announced, when no flush fails and no hook raises,
    no handler raises, and after every sequence the flag
    [_after_failed_commit_active] and the lock have the same value:
    both set exactly when a commit is under way. *)
Theorem lifecycle_keeps_flag_and_lock (sigs : list Signal) (s : Session) :
  flushes_succeed sigs = true ->
  well_ordered (locked s) sigs = true ->
  _after_failed_commit_active s = locked s ->
  exists s',
    run_signals hooks sigs s = Normal s'
    /\ _after_failed_commit_active s' = locked s'
    /\ locked s' = pending_after (locked s) sigs.
Proof.
  revert s. induction sigs as [|sig rest IH]; intros s Hf Hw Hag.
  - exists s. repeat split. exact Hag.
  - destruct (handle_keeps_agreement sig rest s Hf Hw Hag)
      as [s1 [E [Hag1 [L1 [Hf1 Hw1]]]]].
    destruct (IH s1 Hf1 Hw1 Hag1) as [s' [E' [Hag' L']]].
    exists s'. simpl run_signals. rewrite E. fields.
    repeat split; try assumption.
    now rewrite pending_after_cons, <- L1.
Qed.

End Protocol.

Lemma lifecycle_keeps_flag_and_lock_witness :
  exists s',
    run_signals recording_hooks sample_signals new_Session = Normal s'
    /\ _after_failed_commit_active s' = locked s'
    /\ locked s' = false.
Proof.
  apply (@lifecycle_keeps_flag_and_lock recording_hooks);
    reflexivity.
Defined.

(** ** What a recording changes *)

(** X11: recording on an unlocked session touches one entry of one
    bucket.  [_add_{t}_commit_object(obj, k)] leaves the lock, the
    flag, the transaction reference, the calls and the two other
    buckets as they were; in the bucket of [t] the entities keep their
    order, [obj] is appended when it was not there, and the only pair
    that becomes tracked is [obj] with [k]: every other entity keeps
    its kinds and [obj] keeps the kinds it had. *)
Theorem recording_touches_one_entry (t : Time) (obj : Entity) (k : Kind)
  (s : Session) :
  locked s = false ->
  same_frame s (add_commit_object t obj k s)
  /\ calls (add_commit_object t obj k s) = calls s
  /\ (forall t', t' <> t ->
        bucket_of t' (add_commit_object t obj k s) = bucket_of t' s)
  /\ keys (bucket_of t (add_commit_object t obj k s)) =
     (if existsb (Nat.eqb obj) (keys (bucket_of t s))
      then keys (bucket_of t s)
      else keys (bucket_of t s) ++ [obj])
  /\ (forall o k',
        ks_mem k' (bucket_get (bucket_of t (add_commit_object t obj k s)) o) =
        (Nat.eqb obj o && Kind_eqb k' k)
        || ks_mem k' (bucket_get (bucket_of t s) o)).
Proof.
  intros L. split; [apply add_commit_object_frame|].
  split; [apply calls_add_commit_object|]. split; [|split].
  - intros t' Hne. rewrite add_commit_object_unlocked by assumption.
    unfold bucket_of. destruct t, t'; try reflexivity; congruence.
  - rewrite bucket_of_add_commit_object by assumption.
    apply keys_bucket_add.
  - intros o k'. rewrite bucket_of_add_commit_object by assumption.
    rewrite bucket_get_add. destruct (Nat.eqb_spec obj o) as [->|Hne]; simpl.
    + apply ks_mem_add.
    + reflexivity.
Qed.

Lemma recording_touches_one_entry_witness :
  keys (bucket_of Before
          (add_commit_object Before 7 Update flushed_session)) = [1; 2; 7]
  /\ bucket_of After (add_commit_object Before 7 Update flushed_session) =
     bucket_of After flushed_session.
Proof.
  destruct (@recording_touches_one_entry Before 7 Update flushed_session
              eq_refl) as [_ [_ [Ho [Hk _]]]].
  split; [exact Hk|]. apply Ho. discriminate.
Defined.

(** ** The hooks a class registers *)

Lemma NoDup__lookup_hooks : NoDup _lookup_hooks.
Proof.
  unfold _lookup_hooks. simpl.
  repeat constructor; simpl; intuition discriminate.
Qed.

(** X12: [_overridden_hooks] of a class is the set of the hooks that
    the class or one of its ancestors defines: a hook is in it exactly
    when some class of the resolution order defines it, no hook is in
    it twice, and a class that defines and inherits no hook has
    none. *)
Theorem _overridden_hooks_are_the_defined_ones (mro : list ClassDef) :
  (forall hook,
      In hook (_overridden_hooks mro) <->
      exists c, In c mro /\ In hook (defines c))
  /\ NoDup (_overridden_hooks mro)
  /\ ((forall c, In c mro -> defines c = []) -> _overridden_hooks mro = []).
Proof.
  split; [intros hook; apply in__overridden_hooks|]. split.
  - apply NoDup_filter, NoDup__lookup_hooks.
  - intros Hnone.
    destruct (_overridden_hooks mro) as [|hook l] eqn:E; [reflexivity|].
    assert (Hin : In hook (_overridden_hooks mro)) by (rewrite E; now left).
    apply in__overridden_hooks in Hin as [c [Hc Hh]].
    rewrite (Hnone c Hc) in Hh. destruct Hh.
Qed.

Lemma _overridden_hooks_are_the_defined_ones_witness :
  _overridden_hooks [Skipped] = []
  /\ In (Before, Update) (_overridden_hooks [SkippedSub; Skipped; Direct]).
Proof.
  split.
  - apply (_overridden_hooks_are_the_defined_ones [Skipped]).
    intros c [<-|[]]. reflexivity.
  - apply (_overridden_hooks_are_the_defined_ones
             [SkippedSub; Skipped; Direct]).
    exists Direct. split; [right; right; now left | now left].
Defined.

(** X13: creating a chain of classes installs, for each class of the
    chain, a listener for every hook that the class defines or
    inherits from a class created before it, on the event of the
    hook's kind and with the hook's phase; it installs no other
    listener and removes none. *)
Theorem declare_chain_listeners (chain above : list ClassDef)
  (reg : Registry) (l : Listener) :
  In l (declare_chain above chain reg) <->
  In l reg
  \/ exists pre c post,
       chain = pre ++ c :: post
       /\ target l = cls c
       /\ exists d,
            In d (c :: rev pre ++ above)
            /\ In (time l, action l) (defines d).
Proof.
  revert above reg. induction chain as [|c0 rest IH]; intros above reg;
    cbn [declare_chain].
  - split; [now left|]. intros [H|[pre [c [post [E _]]]]]; [exact H|].
    now destruct pre.
  - rewrite IH, in__init_subclass__. split.
    + intros [[H|[Ht Hd]]|[pre [c [post [E [Ht [d [Hd Hh]]]]]]]].
      * now left.
      * right. exists [], c0, rest. simpl. repeat split; assumption.
      * right. exists (c0 :: pre), c, post. subst rest.
        split; [reflexivity|]. split; [exact Ht|]. exists d.
        split; [|exact Hh]. simpl. rewrite <- app_assoc. exact Hd.
    + intros [H|[pre [c [post [E [Ht [d [Hd Hh]]]]]]]]; [now left; left|].
      destruct pre as [|c1 pre]; simpl in E; injection E as -> ->.
      * left. right. split; [exact Ht|]. now exists d.
      * right. exists pre, c, post. split; [reflexivity|].
        split; [exact Ht|]. exists d. split; [|exact Hh].
        simpl in Hd. rewrite <- app_assoc in Hd. exact Hd.
Qed.

(** ** Names *)

Lemma string_length_append (a b : string) :
  String.length (String.append a b) = String.length a + String.length b.
Proof. induction a as [|x a IH]; simpl; [reflexivity | now rewrite IH]. Qed.

Lemma string_append_cancel_r (a b c : string) :
  String.append a c = String.append b c -> a = b.
Proof.
  revert b. induction a as [|x a IH]; intros [|y b] H; simpl in H.
  - reflexivity.
  - apply (f_equal String.length) in H. simpl in H.
    rewrite string_length_append in H. lia.
  - apply (f_equal String.length) in H. simpl in H.
    rewrite string_length_append in H. lia.
  - injection H as -> H. now rewrite (IH b H).
Qed.

Lemma count_char_append (c : ascii) (a b : string) :
  Names.count_char c (String.append a b) =
  Names.count_char c a + Names.count_char c b.
Proof.
  induction a as [|x a IH]; simpl; [reflexivity|]. rewrite IH. lia.
Qed.

Lemma split_length (sep : ascii) (s : string) :
  length (Names.split sep s) = S (Names.count_char sep s).
Proof.
  induction s as [|c s IH]; simpl; [reflexivity|].
  destruct (Ascii.eqb c sep); simpl; [now rewrite IH|].
  destruct (Names.split sep s) as [|piece pieces]; simpl in *; lia.
Qed.

Lemma split_parts (m : string) :
  (3 <= Names.count_char "_" m ->
   exists time action,
     nth_error (Names.split "_" m) 0 = Some time
     /\ nth_error (Names.split "_" m) 3 = Some action)
  /\ (Names.count_char "_" m < 3 ->
      nth_error (Names.split "_" m) 3 = None).
Proof.
  pose proof (split_length "_" m) as Hl. split; intros H.
  - destruct (nth_error (Names.split "_" m) 0) as [time|] eqn:E0.
    + destruct (nth_error (Names.split "_" m) 3) as [action|] eqn:E3.
      * now exists time, action.
      * apply nth_error_None in E3. lia.
    + apply nth_error_None in E0. lia.
  - apply nth_error_None. lia.
Qed.

Lemma hook_name_parts (t : Time) (k : Kind) :
  nth_error (Names.split "_" (Names.hook_name (t, k))) 0 =
  Some (Names.time_name t)
  /\ nth_error (Names.split "_" (Names.hook_name (t, k))) 3 =
     Some (Names.kind_name k).
Proof. destruct t, k; split; reflexivity. Qed.

Lemma split_app_no_sep (sep : ascii) (a b : string) :
  Names.count_char sep a = 0 ->
  Names.split sep (String.append a (String sep b)) = a :: Names.split sep b.
Proof.
  induction a as [|x a IH]; simpl.
  - now rewrite Ascii.eqb_refl.
  - destruct (Ascii.eqb x sep); [discriminate|]. simpl.
    intros H. now rewrite (IH H).
Qed.

Lemma hook_func_parts (time : string) (k : Kind) :
  Names.count_char "_" time = 0 ->
  Names.split "_" (Names.hook_func time (Names.kind_name k)) =
  [time; "commit"; "from"; Names.kind_name k]%string.
Proof.
  intros H. unfold Names.hook_func.
  change (String.append "_commit_from_" (Names.kind_name k))
    with (String "_" (String.append "commit_from_" (Names.kind_name k))).
  rewrite split_app_no_sep by assumption. now destruct k.
Qed.

(** X14: the names fit together.  The names that [_lookup_hooks] finds
    among the attributes of [CommitMixin] are the nine names
    [f'{time}_commit_from_{type_}'] that [_do_commits] builds;
    splitting such a name at ['_'] gives the phase at position 0 and
    the kind at position 3; and the bridge built from the name of a
    phase calls the recording method of that phase. *)
Theorem hook_names_round_trip :
  (forall m,
      In m Names._lookup_hooks <-> exists t k, m = Names.hook_name (t, k))
  /\ (forall t k,
        nth_error (Names.split "_" (Names.hook_name (t, k))) 0 =
        Some (Names.time_name t)
        /\ nth_error (Names.split "_" (Names.hook_name (t, k))) 3 =
           Some (Names.kind_name k))
  /\ forall t k w obj,
       Names._build_add_func (Names.time_name t) k w obj =
       _build_add_func t k w obj.
Proof.
  split; [|split].
  - assert (E : Names._lookup_hooks = map Names.hook_name _lookup_hooks)
      by reflexivity.
    intros m. rewrite E, in_map_iff. split.
    + intros [[t k] [<- _]]. now exists t, k.
    + intros [t [k ->]]. exists (t, k).
      split; [reflexivity | apply in__lookup_hooks].
  - apply hook_name_parts.
  - intros t k w obj. unfold Names._build_add_func, _build_add_func.
    now destruct t.
Qed.

Section NamedRegistration.

Variable known_event : string -> bool.

Lemma installs_parts (m : string) :
  Names.installs known_event m = true ->
  exists time action,
    nth_error (Names.split "_" m) 0 = Some time
    /\ nth_error (Names.split "_" m) 3 = Some action
    /\ known_event (Names.event_identifier action) = true.
Proof.
  unfold Names.installs.
  destruct (nth_error (Names.split "_" m) 3) as [action|] eqn:E3;
    [|discriminate].
  intros Hk.
  destruct (nth_error (Names.split "_" m) 0) as [time|] eqn:E0.
  - now exists time, action.
  - apply nth_error_None in E0. rewrite split_length in E0. lia.
Qed.

Lemma named_register_ok (c : ClassId) (methods : list string)
  (reg : list Names.NamedListener) :
  (forall m, In m methods -> Names.installs known_event m = true) ->
  snd (Names._register_hooks known_event c methods reg) = None
  /\ length (fst (Names._register_hooks known_event c methods reg)) =
     length reg + length methods
  /\ firstn (length reg)
            (fst (Names._register_hooks known_event c methods reg)) = reg.
Proof.
  revert reg. induction methods as [|m methods IH]; intros reg H.
  - simpl. repeat split; [lia|]. apply firstn_all.
  - cbn [Names._register_hooks].
    destruct (installs_parts m) as [time [action [-> [-> ->]]]];
      [apply H; now left|].
    destruct (IH (reg ++ [Names.mkNamedListener c
                            (Names.event_identifier action) time action]))
      as [E [Hl Hf]]; [intros m' Hm'; apply H; now right|].
    split; [exact E|]. split.
    + rewrite Hl, length_app. simpl. lia.
    + apply (f_equal (firstn (length reg))) in Hf.
      rewrite firstn_firstn, length_app, Nat.min_l in Hf by lia.
      rewrite Hf. rewrite firstn_app, Nat.sub_diag, firstn_all. simpl.
      apply app_nil_r.
Qed.

(** X15: registering hooks by name installs the listeners of the
    registry.  When the engine has the events of the three kinds,
    [_register_hooks], given the names of hooks, raises nothing and
    adds for each name, in order, the listener on the event
    [f'after_{kind}'] that holds the phase and the kind of the hook. *)
Theorem _register_hooks_by_name (c : ClassId) (methods : list HookName)
  (reg : Registry) :
  (forall k,
      known_event (Names.event_identifier (Names.kind_name k)) = true) ->
  Names._register_hooks known_event c (map Names.hook_name methods)
                        (map Names.named reg) =
  (map Names.named (_register_hooks c methods reg), None).
Proof.
  intros Hk. revert reg.
  induction methods as [|[t k] methods IH]; intros reg.
  - reflexivity.
  - cbn [map Names._register_hooks].
    destruct (hook_name_parts t k) as [-> ->]. rewrite Hk.
    change (map Names.named reg
            ++ [Names.mkNamedListener c
                  (Names.event_identifier (Names.kind_name k))
                  (Names.time_name t) (Names.kind_name k)])
      with (map Names.named reg ++ map Names.named [mkListener c k t]).
    rewrite <- map_app. now rewrite IH.
Qed.

(** X16: a name that does not fit.  [_register_hooks] takes the pieces
    0 and 3 of a name split at ['_'] and listens on the event named
    after piece 3.  At the first name, in the order of iteration, that
    has fewer than three underscores it raises [IndexError], and at the
    first whose piece 3 names no event of the engine [event.listen]
    raises; the listeners of the names before it, and those installed
    earlier, stay installed, and the names after it are not looked
    at. *)
Theorem _register_hooks_stops_at_bad_name (c : ClassId)
  (good rest : list string) (m : string) (reg : list Names.NamedListener) :
  (forall g, In g good -> Names.installs known_event g = true) ->
  Names.installs known_event m = false ->
  snd (Names._register_hooks known_event c good reg) = None
  /\ Names._register_hooks known_event c (good ++ m :: rest) reg =
     (fst (Names._register_hooks known_event c good reg),
      Some (if Names.count_char "_" m <? 3
            then Names.IndexError else Names.InvalidRequestError))
  /\ length (fst (Names._register_hooks known_event c good reg)) =
     length reg + length good
  /\ firstn (length reg)
            (fst (Names._register_hooks known_event c good reg)) = reg.
Proof.
  intros Hg Hm.
  destruct (named_register_ok c good reg Hg) as [E [Hl Hf]].
  repeat split; try assumption.
  clear E Hl Hf. revert reg.
  induction good as [|g good IH]; intros reg.
  - cbn [app Names._register_hooks fst].
    unfold Names.installs in Hm.
    destruct (Nat.ltb_spec (Names.count_char "_" m) 3) as [Hlt|Hge].
    + rewrite (proj2 (split_parts m) Hlt).
      now destruct (nth_error (Names.split "_" m) 0).
    + destruct (proj1 (split_parts m) Hge) as [time [action [E0 E3]]].
      rewrite E3 in Hm. now rewrite E0, E3, Hm.
  - cbn [app Names._register_hooks].
    destruct (installs_parts g) as [time [action [-> [-> ->]]]];
      [apply Hg; now left|].
    apply IH. intros g' Hg'. apply Hg. now right.
Qed.

End NamedRegistration.

Lemma _register_hooks_by_name_witness :
  Names._register_hooks Names.mutation_events 1
    (map Names.hook_name [(Before, Insert); (After, Delete)]) [] =
  ([Names.mkNamedListener 1 "after_insert" "before" "insert";
    Names.mkNamedListener 1 "after_delete" "after" "delete"], None).
Proof.
  assert (H : forall k,
             Names.mutation_events
               (Names.event_identifier (Names.kind_name k)) = true)
    by now intros [].
  exact (@_register_hooks_by_name Names.mutation_events 1
           [(Before, Insert); (After, Delete)] [] H).
Defined.

Lemma _register_hooks_stops_at_bad_name_witness :
  Names._register_hooks Names.mutation_events 1
    ["before_commit_from_insert"; "foo_bar"; "after_commit_from_delete"]%string
    [] =
  ([Names.mkNamedListener 1 "after_insert" "before" "insert"],
   Some Names.IndexError)
  /\ Names._register_hooks Names.mutation_events 1
       ["before_commit_from_insert"; "a_b_commit_from_insert"]%string [] =
     ([Names.mkNamedListener 1 "after_insert" "before" "insert"],
      Some Names.InvalidRequestError).
Proof.
  split.
  - destruct (@_register_hooks_stops_at_bad_name Names.mutation_events 1
                ["before_commit_from_insert"%string]
                ["after_commit_from_delete"%string] "foo_bar"%string [])
      as [_ [E _]]; [now intros g [<-|[]] | reflexivity | exact E].
  - destruct (@_register_hooks_stops_at_bad_name Names.mutation_events 1
                ["before_commit_from_insert"%string] []
                "a_b_commit_from_insert"%string [])
      as [_ [E _]]; [now intros g [<-|[]] | reflexivity | exact E].
Defined.

Lemma add_method_names_phase (time : string) (t : Time) :
  Names.SessionMixin_getattr (Names.add_method time) = Some t ->
  time = Names.time_name t.
Proof.
  unfold Names.SessionMixin_getattr.
  destruct (String.eqb_spec (Names.add_method time)
              "_add_before_commit_object") as [E|_];
    [|destruct (String.eqb_spec (Names.add_method time)
                  "_add_after_commit_object") as [E|_];
      [|destruct (String.eqb_spec (Names.add_method time)
                    "_add_failed_commit_object") as [E|_];
        [|discriminate]]];
    intros [= <-]; unfold Names.add_method in E; simpl in E;
    injection E as E.
  - now apply (string_append_cancel_r time "before" "_commit_object").
  - now apply (string_append_cancel_r time "after" "_commit_object").
  - now apply (string_append_cancel_r time "failed" "_commit_object").
Qed.

(** X17: a phase the session does not know.  For a hook name whose
    first piece has no underscore and is none of the three phases,
    [_register_hooks] has no objection and installs the listener on the
    event of the kind; but the listener raises [AttributeError] each
    time an event reaches it, also for an entity of a session that
    carries the mixin, and records nothing. *)
Theorem bridge_of_unknown_phase (known_event : string -> bool)
  (time : string) (k : Kind) (c : ClassId)
  (reg : list Names.NamedListener) (w : World) (obj : Entity) :
  known_event (Names.event_identifier (Names.kind_name k)) = true ->
  Names.count_char "_" time = 0 ->
  (forall t, time <> Names.time_name t) ->
  Names._register_hooks known_event c
    [Names.hook_func time (Names.kind_name k)] reg =
  (reg ++ [Names.mkNamedListener c
             (Names.event_identifier (Names.kind_name k)) time
             (Names.kind_name k)], None)
  /\ Names._build_add_func time k w obj = WRaise AttributeError w.
Proof.
  intros Hk Hc Hun. split.
  - cbn [Names._register_hooks]. rewrite hook_func_parts by assumption.
    cbn [nth_error]. now rewrite Hk.
  - unfold Names._build_add_func.
    destruct (object_session w obj) as [sid|]; [|reflexivity].
    destruct (nth_error (sessions w) sid) as [session|]; [|reflexivity].
    destruct (Names.SessionMixin_getattr (Names.add_method time))
      as [t|] eqn:E; [|reflexivity].
    apply add_method_names_phase in E. now destruct (Hun t).
Qed.

Lemma bridge_of_unknown_phase_witness :
  Names._register_hooks Names.mutation_events 1
    ["during_commit_from_insert"%string] [] =
  ([Names.mkNamedListener 1 "after_insert" "during" "insert"], None)
  /\ Names._build_add_func "during" Insert two_session_world 2 =
     WRaise AttributeError two_session_world.
Proof.
  apply (@bridge_of_unknown_phase Names.mutation_events "during" Insert 1 []
           two_session_world 2).
  - reflexivity.
  - reflexivity.
  - intros []; discriminate.
Defined.

(** ** The dispatch and the transaction reference *)

Lemma add_commit_object_but_transaction (t : Time) (obj : Entity) (k : Kind)
  (s s' : Session) :
  same_but_transaction s s' ->
  same_but_transaction (add_commit_object t obj k s)
                       (add_commit_object t obj k s').
Proof.
  destruct s as [c a x l n], s' as [c' a' x' l' n'].
  unfold same_but_transaction. simpl. intros [-> [-> ->]].
  destruct t; simpl;
    unfold _add_before_commit_object, _add_after_commit_object,
      _add_failed_commit_object; simpl;
    destruct (lock c); simpl; repeat split.
Qed.

Lemma run_ops_but_transaction (ops : list HookOp) (s s' : Session) :
  same_but_transaction s s' ->
  same_outcome_but_transaction (run_ops ops s) (run_ops ops s').
Proof.
  revert s s'. induction ops as [|[t obj k|e] ops IH]; intros s s' R; simpl.
  - exact R.
  - apply IH. now apply add_commit_object_but_transaction.
  - now split.
Qed.

Lemma bind_but_transaction (m m' : Outcome) (f f' : Session -> Outcome) :
  same_outcome_but_transaction m m' ->
  (forall s s', same_but_transaction s s' ->
                same_outcome_but_transaction (f s) (f' s')) ->
  same_outcome_but_transaction (m >>= f) (m' >>= f').
Proof.
  destruct m as [s|e s], m' as [s'|e' s']; simpl; intros R H;
    try contradiction; [now apply H | exact R].
Qed.

Section Transaction.

Variable hooks : Entity -> Time -> Kind -> HookImpl.

Lemma call_hook_but_transaction (obj : Entity) (t : Time) (k : Kind)
  (s s' : Session) :
  same_but_transaction s s' ->
  same_outcome_but_transaction (call_hook hooks obj t k s)
                               (call_hook hooks obj t k s').
Proof.
  intros [Rc [Ra Rl]]. unfold call_hook, run_hook.
  assert (R : same_but_transaction (log_call (obj, t, k) s)
                                   (log_call (obj, t, k) s'))
    by (repeat split; simpl; congruence).
  destruct (hooks obj t k) as [|body]; [now split|].
  now apply run_ops_but_transaction.
Qed.

Lemma for_obj_but_transaction (t : Time) (k : Kind) (used rem : nat)
  (s s' : Session) :
  same_but_transaction s s' ->
  same_outcome_but_transaction (for_obj hooks t k used rem s)
                               (for_obj hooks t k used rem s').
Proof.
  revert s s'. induction rem as [|rem IH]; intros s s' R;
    assert (Eb : bucket_of t s' = bucket_of t s)
      by (unfold bucket_of; now rewrite (proj1 R));
    simpl; rewrite Eb;
    destruct (negb (length (bucket_of t s) =? used));
    try (now split); try exact R.
  destruct (nth_error (keys (bucket_of t s)) (used - S rem)) as [obj|];
    [|exact R].
  apply bind_but_transaction; [|exact IH].
  destruct (ks_mem k (bucket_get (bucket_of t s) obj)); [|exact R].
  now apply call_hook_but_transaction.
Qed.

Lemma for_types_but_transaction (t : Time) (types : list Kind)
  (s s' : Session) :
  same_but_transaction s s' ->
  same_outcome_but_transaction (for_types hooks t types s)
                               (for_types hooks t types s').
Proof.
  revert s s'. induction types as [|k types IH]; intros s s' R; simpl;
    [exact R|].
  apply bind_but_transaction; [|exact IH].
  unfold for_objects.
  replace (bucket_of t s') with (bucket_of t s)
    by (unfold bucket_of; now rewrite (proj1 R)).
  now apply for_obj_but_transaction.
Qed.

Lemma _do_commits_but_transaction (t : Time) (s s' : Session) :
  same_but_transaction s s' ->
  same_outcome_but_transaction (_do_commits hooks t s)
                               (_do_commits hooks t s').
Proof.
  intros R. unfold _do_commits. apply bind_but_transaction.
  - now apply for_types_but_transaction.
  - intros a a' [Rc [Ra Rl]]. simpl. unfold same_but_transaction. simpl.
    now rewrite Rc, Ra, Rl.
Qed.

(** X18: the dispatch of the copy [src/commit_mixin.py], made without
    [_tmp_transaction], and the dispatch of the package agree on
    everything but the transaction.  For the after and for the failed
    bucket both return, or both raise the same exception, having
    called the same hooks and left the same change record and flag;
    the copy never changes the transaction reference.  No assumption
    is made on the hooks. *)
Theorem unscoped_copy_same_dispatch (s : Session) :
  same_outcome_but_transaction (Unscoped._do_after_commits hooks s)
                               (_do_after_commits hooks s)
  /\ same_outcome_but_transaction (Unscoped._do_failed_commits hooks s)
                                  (_do_failed_commits hooks s)
  /\ transaction (final (Unscoped._do_after_commits hooks s)) = transaction s
  /\ transaction (final (Unscoped._do_failed_commits hooks s)) =
     transaction s.
Proof.
  assert (R1 : same_but_transaction s
                 (with_transaction (Some (TmpTxn (fresh s)))
                    (snd (SessionTransaction s)))) by repeat split.
  assert (H : forall t t',
             same_outcome_but_transaction
               (_do_commits hooks t s
                >>= fun x => Normal (assign_lock false (clear_bucket t' x)))
               (_tmp_transaction (_do_commits hooks t) s
                >>= fun x => Normal (assign_lock false (clear_bucket t' x)))).
  { intros t t'. unfold _tmp_transaction. simpl.
    pose proof (_do_commits_but_transaction t R1) as R.
    destruct (_do_commits hooks t s) as [a|e a],
             (_do_commits hooks t _) as [b|e' b]; simpl in *;
      try contradiction; [|exact R].
    destruct R as [Rc [Ra Rl]]. unfold same_but_transaction. simpl.
    now rewrite Rc, Ra, Rl. }
  assert (F : forall t t',
             transaction
               (final (_do_commits hooks t s
                       >>= fun x =>
                             Normal (assign_lock false (clear_bucket t' x))))
             = transaction s).
  { intros t t'. pose proof (_do_commits_frame hooks t s) as [_ [_ [Hx _]]].
    now destruct (_do_commits hooks t s). }
  split; [exact (H After Failed)|]. split; [exact (H Failed After)|].
  split; [exact (F After Failed) | exact (F Failed After)].
Qed.

End Transaction.

(** ** What a handler that returns has done *)

Section Returned.

Variable hooks : Entity -> Time -> Kind -> HookImpl.

Lemma _do_commits_returned (t : Time) (s s1 : Session) :
  _do_commits hooks t s = Normal s1 ->
  bucket_of t s1 = [] /\ same_frame s s1.
Proof.
  intros E. split.
  - destruct (_do_commits_returns_cleared hooks _ _ E) as [x ->].
    unfold bucket_of. now destruct t.
  - pose proof (_do_commits_frame hooks t s) as F. now rewrite E in F.
Qed.

Lemma _tmp_transaction_returned (t t' : Time) (s s1 : Session) :
  _tmp_transaction (_do_commits hooks t) s
  >>= (fun x => Normal (assign_lock false (clear_bucket t' x))) = Normal s1 ->
  locked s1 = false
  /\ bucket_of t s1 = []
  /\ bucket_of t' s1 = []
  /\ transaction s1 = transaction s
  /\ _after_failed_commit_active s1 = _after_failed_commit_active s.
Proof.
  unfold _tmp_transaction. simpl.
  destruct (_do_commits hooks t _) as [a|e a] eqn:E; simpl; [|discriminate].
  intros [= <-]. apply _do_commits_returned in E as [Eb [_ [Ea _]]].
  unfold bucket_of, locked in *. simpl in *.
  repeat split.
  - destruct t, t'; simpl in *; try reflexivity; exact Eb.
  - now destruct t'.
  - exact Ea.
Qed.

(** X19: what holds when a handler returns, whatever the hooks did.
    After [before_commit] the lock and the flag are set and the before
    bucket is empty.  After [after_commit] the lock and the flag are
    cleared, the after and the failed bucket are empty and the
    transaction reference is the one of before.  After
    [after_failed_commit] the flag is cleared, and if it was set on
    entry the lock is cleared too, the after and the failed bucket are
    empty and the transaction reference is the one of before. *)
Theorem handlers_postconditions (pending : list HookOp) (s s1 : Session) :
  (before_commit hooks pending s = Normal s1 ->
   locked s1 = true
   /\ _after_failed_commit_active s1 = true
   /\ bucket_of Before s1 = [])
  /\ (after_commit hooks s = Normal s1 ->
      locked s1 = false
      /\ _after_failed_commit_active s1 = false
      /\ bucket_of After s1 = []
      /\ bucket_of Failed s1 = []
      /\ transaction s1 = transaction s)
  /\ (after_failed_commit hooks s = Normal s1 ->
      _after_failed_commit_active s1 = false
      /\ (_after_failed_commit_active s = true ->
          locked s1 = false
          /\ bucket_of After s1 = []
          /\ bucket_of Failed s1 = []
          /\ transaction s1 = transaction s)).
Proof.
  split; [|split].
  - unfold before_commit, _do_before_commits.
    destruct (flush pending s) as [sf|e sf]; simpl; [|discriminate].
    intros E. apply _do_commits_returned in E as [Eb [L [A _]]].
    repeat split; assumption.
  - unfold after_commit, _do_after_commits. intros E.
    apply _tmp_transaction_returned in E as [L [Ea [Ef [Ex A]]]].
    repeat split; assumption.
  - unfold after_failed_commit.
    destruct (_after_failed_commit_active s) eqn:Ha.
    + destruct (_do_failed_commits hooks s) as [a|e a] eqn:E; simpl;
        [|discriminate].
      intros [= <-]. split; [reflexivity|]. intros _.
      unfold _do_failed_commits in E.
      apply _tmp_transaction_returned in E as [L [Ef [Ea [Ex _]]]].
      repeat split; assumption.
    + simpl. intros [= <-]. split; [reflexivity | discriminate].
Qed.

End Returned.

Lemma handlers_postconditions_witness :
  exists s1,
    before_commit recording_hooks (insert_flush 1) new_Session = Normal s1
    /\ locked s1 = true
    /\ _after_failed_commit_active s1 = true
    /\ bucket_of Before s1 = [].
Proof.
  eexists. split; [reflexivity|].
  apply (proj1 (handlers_postconditions recording_hooks (insert_flush 1)
                  new_Session _)).
  reflexivity.
Defined.
